(** * Promise.js: a shallow embedding and its specification

    The development follows [src/Promise.js].  Promise objects live in a
    heap indexed by allocation order, the mutable variables captured by
    closures ([invoked], [settled], [result], [count]) live in stores of
    their own, and [setTimeout] is a FIFO queue of pending tasks.  Code the
    library receives from its user (handlers, resolvers, the [then] method
    of a foreign thenable) is described by what it does to the library. *)

From Stdlib Require Import ZArith String.
From stdpp Require Import base list relations strings.

Set Warnings "-register-all".

(** ** Values *)

(** [Status] of src/Promise.js, with the source's spelling. *)
Inductive Status := PENDING | FULLFILLED | REJECTED.

#[global] Instance Status_eq_dec : EqDecision Status.
Proof. solve_decision. Defined.

(** The [action] string handed to [makeCallback] and [makeAllCallback]:
    ['resolve'] or ['reject']. *)
Inductive Action := ActResolve | ActReject.

(** JavaScript values, as far as the library looks at them.  Objects are
    compared by identity: a promise by its heap index, a foreign object by
    its [id].  [VArray] stands for an array or an array-like object (its own
    [length] and the elements below it); [VThenable] for a foreign object,
    given with what reading its [then] member does; [VUserFn] for a function
    of the user without a [then] member of its own; [VClosure] for a
    function created by the library. *)
Inductive Value :=
| VUndefined
| VNull
| VBool (b : bool)
| VNum (n : Z)
| VStr (s : string)
| VTypeError (message : string)
| VArray (elements : list Value)
| VPromise (p : nat)
| VThenable (id : nat) (member : ThenMember)
| VUserFn (f : nat)
| VClosure (c : Closure)

(** What reading [x.then] on a foreign object gives. *)
with ThenMember :=
| ThenThrows (e : Value)
| ThenNotCallable
| ThenFn (body : ThenBody)

(** The body of a foreign [then(resolvePromise, rejectPromise)]: the calls
    it makes to the two functions it was given, and how it ends. *)
with ThenBody :=
| TReturn
| TThrow (e : Value)
| TResolve (y : Value) (k : ThenBody)
| TResolveSelf (k : ThenBody)
| TReject (e : Value) (k : ThenBody)

(** The functions the library itself creates. *)
with Closure :=
| FResolve (promise : nat)
| FReject (promise : nat)
| FRaceResolve (scope : nat)
| FRaceReject (scope : nat)
| FAll (scope : nat) (index : nat) (action : Action)
| FResolvePromise (invoked : nat) (x : Value) (promise : nat)
| FRejectPromise (invoked : nat) (promise : nat).

(** How a call ends. *)
Inductive Completion :=
| Normal (v : Value)
| Throw (e : Value).

(** The body of a resolver handed to the constructor: its calls to the two
    functions it was given, and how it ends. *)
Inductive ResolverBody :=
| RReturn
| RThrow (e : Value)
| RResolve (data : Value) (k : ResolverBody)
| RReject (reason : Value) (k : ResolverBody).

(** The calls user code can make into the library.  Promises are named by
    heap index, and the functions the library hands out ([resolve] and
    [reject] of a resolver or a Deferred, the two functions given to a
    foreign [then]) by their closure. *)
Inductive Cmd :=
| CNew (with_new : bool) (resolver : option ResolverBody)
| CThen (this : nat) (onResolve onReject : Value)
| CDone (this : nat) (onResolve : Value)
| CFail (this : nat) (onReject : Value)
| CCatch (this : nat) (onFail : Value)
| CResolve (value : Value)
| CReject (reason : Value)
| CRace (iterable : Value)
| CAll (iterable : Value)
| CDefer
| CCall (c : Closure) (arg : Value).

(** A user function: its declared arity ([f.length]) and, for each
    argument, the library calls it makes followed by its completion.  An
    exception thrown by one of the calls ends the function with that
    exception. *)
Record UserFn := {
  fn_length : nat;
  fn_body : Value -> list Cmd * Completion
}.

(** ** The store *)

(** The function [promiseCallback] returned by
    [makeCallback(promise, callback, action)]. *)
Record Callback := makeCallback {
  cb_promise : nat;
  cb_callback : Value;
  cb_action : Action
}.

Record PromiseObj := {
  _status : Status;
  _value : Value;
  _doneCallbacks : list Callback;
  _failCallbacks : list Callback
}.

(** Variables of one call of [Promise.race]. *)
Record RaceScope := {
  race_promise : nat;
  settled : bool
}.

(** Variables of one call of [Promise.all]. *)
Record AllScope := {
  all_promise : nat;
  all_length : nat;
  result : list Value;
  count : nat
}.

(** A function handed to [setTimeout] by [run]. *)
Record Task := {
  task_callbacks : list Callback;
  task_value : Value
}.

(** The store: promise objects, [invoked] latches, the scopes of the
    [race] and [all] calls, the timer queue, and the record of the calls of
    user handlers made so far (function and argument). *)
Record State := {
  heap : list PromiseObj;
  latches : list bool;
  races : list RaceScope;
  alls : list AllScope;
  timers : list Task;
  trace : list (nat * Value)
}.

Definition empty_state : State :=
  {| heap := []; latches := []; races := []; alls := []; timers := []; trace := [] |}.

Definition with_heap (h : list PromiseObj) (s : State) : State :=
  {| heap := h; latches := latches s; races := races s; alls := alls s;
     timers := timers s; trace := trace s |}.

Definition with_latches (l : list bool) (s : State) : State :=
  {| heap := heap s; latches := l; races := races s; alls := alls s;
     timers := timers s; trace := trace s |}.

Definition with_races (r : list RaceScope) (s : State) : State :=
  {| heap := heap s; latches := latches s; races := r; alls := alls s;
     timers := timers s; trace := trace s |}.

Definition with_alls (a : list AllScope) (s : State) : State :=
  {| heap := heap s; latches := latches s; races := races s; alls := a;
     timers := timers s; trace := trace s |}.

Definition with_timers (t : list Task) (s : State) : State :=
  {| heap := heap s; latches := latches s; races := races s; alls := alls s;
     timers := t; trace := trace s |}.

Definition with_trace (t : list (nat * Value)) (s : State) : State :=
  {| heap := heap s; latches := latches s; races := races s; alls := alls s;
     timers := timers s; trace := t |}.

(** The fields set by the constructor. *)
Definition fresh_promise : PromiseObj :=
  {| _status := PENDING; _value := VUndefined;
     _doneCallbacks := []; _failCallbacks := [] |}.

Definition alloc_promise (s : State) : State :=
  with_heap (heap s ++ [fresh_promise]) s.

(** An assignment to fields of the object [promise]. *)
Definition modify (promise : nat) (f : PromiseObj -> PromiseObj) (s : State) : State :=
  with_heap (alter f promise (heap s)) s.

(** [promise._status = st; promise._value = v]. *)
Definition settle (promise : nat) (st : Status) (v : Value) : State -> State :=
  modify promise (fun o =>
    {| _status := st; _value := v;
       _doneCallbacks := _doneCallbacks o; _failCallbacks := _failCallbacks o |}).

(** [promise._doneCallbacks.push(cb)]. *)
Definition push_done (promise : nat) (cb : Callback) : State -> State :=
  modify promise (fun o =>
    {| _status := _status o; _value := _value o;
       _doneCallbacks := _doneCallbacks o ++ [cb]; _failCallbacks := _failCallbacks o |}).

(** [promise._failCallbacks.push(cb)]. *)
Definition push_fail (promise : nat) (cb : Callback) : State -> State :=
  modify promise (fun o =>
    {| _status := _status o; _value := _value o;
       _doneCallbacks := _doneCallbacks o; _failCallbacks := _failCallbacks o ++ [cb] |}).

(** [promise._doneCallbacks = []; promise._failCallbacks = []]. *)
Definition clear_callbacks (promise : nat) : State -> State :=
  modify promise (fun o =>
    {| _status := _status o; _value := _value o;
       _doneCallbacks := []; _failCallbacks := [] |}).

(** [setTimeout(task)]: the task joins the end of the queue. *)
Definition setTimeout (t : Task) (s : State) : State :=
  with_timers (timers s ++ [t]) s.

Definition status_of (promise : nat) (s : State) : option Status :=
  _status <$> heap s !! promise.

Definition value_of (promise : nat) (s : State) : option Value :=
  _value <$> heap s !! promise.

(** ** The state machine: [run], [resolve], [reject] *)

Definition run (promise : nat) (s : State) : State :=
  match heap s !! promise with
  | None => s
  | Some o =>
      match _status o with
      | PENDING => s
      | st =>
          let value := _value o in
          let callbacks :=
            match st with
            | FULLFILLED => _doneCallbacks o
            | _ => _failCallbacks o
            end in
          clear_callbacks promise
            (setTimeout {| task_callbacks := callbacks; task_value := value |} s)
      end
  end.

Definition resolve (promise : nat) (data : Value) (s : State) : State :=
  match status_of promise s with
  | Some PENDING => run promise (settle promise FULLFILLED data s)
  | _ => s
  end.

Definition reject (promise : nat) (reason : Value) (s : State) : State :=
  match status_of promise s with
  | Some PENDING => run promise (settle promise REJECTED reason s)
  | _ => s
  end.

(** ** The constructor *)

(** The resolver runs with [function (data) { resolve(promise, data) }] and
    [function (reason) { reject(promise, reason) }]. *)
Fixpoint call_resolver (body : ResolverBody) (promise : nat) (s : State)
  : State * option Value :=
  match body with
  | RReturn => (s, None)
  | RThrow e => (s, Some e)
  | RResolve data k => call_resolver k promise (resolve promise data s)
  | RReject reason k => call_resolver k promise (reject promise reason s)
  end.

(** [Promise(resolver)]: [is_instance] is [this instanceof Promise], that
    is, whether the call was made with [new]; [resolver] is [None] for a
    value that is not a function. *)
Definition Promise (is_instance : bool) (resolver : option ResolverBody) (s : State)
  : State * Completion :=
  if negb is_instance then
    (s, Throw (VTypeError "TypeError: undefined is not a promise"))
  else
    match resolver with
    | None =>
        (s, Throw (VTypeError "TypeError: Promise resolver undefined is not a function"))
    | Some body =>
        let promise := length (heap s) in
        match call_resolver body promise (alloc_promise s) with
        | (s', Some e) => (s', Throw e)
        | (s', None) => (s', Normal (VPromise promise))
        end
    end.

(** [new Promise(empty)]. *)
Definition new_Promise_empty (s : State) : State * nat :=
  (alloc_promise s, length (heap s)).

(** ** [then] *)

Definition then_ (this : nat) (onResolve onReject : Value) (s : State) : State * nat :=
  let '(s1, promise) := new_Promise_empty s in
  let s2 := push_done this (makeCallback promise onResolve ActResolve) s1 in
  let s3 := push_fail this (makeCallback promise onReject ActReject) s2 in
  (run this s3, promise).

Definition done (this : nat) (onResolve : Value) (s : State) : State * nat :=
  then_ this onResolve VNull s.

Definition fail (this : nat) (onReject : Value) (s : State) : State * nat :=
  then_ this VNull onReject s.

Definition catch (this : nat) (onFail : Value) (s : State) : State * nat :=
  then_ this VNull onFail s.

(** ** Thenable assimilation *)

(** [var invoked = false] allocates a latch; [invoked = true] fires it. *)
Definition new_latch (s : State) : State :=
  with_latches (latches s ++ [false]) s.

Definition fire_latch (invoked : nat) (s : State) : State :=
  with_latches (<[invoked := true]> (latches s)) s.

Definition is_invoked (invoked : nat) (s : State) : bool :=
  match latches s !! invoked with
  | Some b => b
  | None => false
  end.

(** [y === x] where [x] is an object: the same promise, or the same foreign
    object. *)
Definition same_object (y x : Value) : bool :=
  match y, x with
  | VPromise p, VPromise q => bool_decide (p = q)
  | VThenable i _, VThenable j _ => bool_decide (i = j)
  | _, _ => false
  end.

Definition thenable_cycle_error : Value :=
  VTypeError "TypeError: The return value could not be same with the previous thenable object".

(** [resolveThenable(x)] inside [promiseCallback], with the [promise] of
    the enclosing [makeCallback]; [call_then] is [then.call(x, ..., ...)]
    for a foreign [then], the two anonymous functions being applied where
    the body calls them.  An exception thrown by the first function passes
    through the foreign [then] to the [catch] around the call. *)
Fixpoint resolveThenable (x : Value) (promise : nat) (s : State) {struct x} : State :=
  match x with
  | VUndefined | VNull | VBool _ | VNum _ | VStr _ => resolve promise x s
  | VTypeError _ | VArray _ | VUserFn _ | VClosure _ => resolve promise x s
  | VPromise q =>
      let invoked := length (latches s) in
      fst (then_ q (VClosure (FResolvePromise invoked x promise))
                   (VClosure (FRejectPromise invoked promise)) (new_latch s))
  | VThenable _ member =>
      match member with
      | ThenThrows e => reject promise e s
      | ThenNotCallable => resolve promise x s
      | ThenFn body =>
          let invoked := length (latches s) in
          match call_then body invoked x promise (new_latch s) with
          | (s', None) => s'
          | (s', Some e) => if is_invoked invoked s' then s' else reject promise e s'
          end
      end
  end

with call_then (body : ThenBody) (invoked : nat) (x : Value) (promise : nat)
       (s : State) {struct body} : State * option Value :=
  match body with
  | TReturn => (s, None)
  | TThrow e => (s, Some e)
  | TResolve y k =>
      if is_invoked invoked s then call_then k invoked x promise s
      else
        let s1 := fire_latch invoked s in
        if same_object y x then (s1, Some thenable_cycle_error)
        else call_then k invoked x promise (resolveThenable y promise s1)
  | TResolveSelf k =>
      if is_invoked invoked s then call_then k invoked x promise s
      else (fire_latch invoked s, Some thenable_cycle_error)
  | TReject e k =>
      if is_invoked invoked s then call_then k invoked x promise s
      else call_then k invoked x promise (reject promise e (fire_latch invoked s))
  end.

(** ** Closures created by the library *)

Definition set_settled (scope : nat) (s : State) : State :=
  match races s !! scope with
  | None => s
  | Some r =>
      with_races (<[scope := {| race_promise := race_promise r; settled := true |}]> (races s)) s
  end.

(** [xs[i] = v] on a JavaScript array: a write past the end extends the
    array, and the holes read as [undefined]. *)
Definition array_set (xs : list Value) (i : nat) (v : Value) : list Value :=
  if decide (i < length xs) then <[i := v]> xs
  else xs ++ replicate (i - length xs) VUndefined ++ [v].

(** [result[index] = value; ++count]. *)
Definition all_record (scope index : nat) (value : Value) (s : State) : State :=
  match alls s !! scope with
  | None => s
  | Some a =>
      with_alls (<[scope := {| all_promise := all_promise a; all_length := all_length a;
                               result := array_set (result a) index value;
                               count := S (count a) |}]> (alls s)) s
  end.

Definition call_closure (c : Closure) (arg : Value) (s : State) : State * Completion :=
  match c with
  | FResolve promise => (resolve promise arg s, Normal VUndefined)
  | FReject promise => (reject promise arg s, Normal VUndefined)
  | FRaceResolve scope =>
      match races s !! scope with
      | None => (s, Normal VUndefined)
      | Some r =>
          if settled r then (s, Normal VUndefined)
          else (resolve (race_promise r) arg (set_settled scope s), Normal VUndefined)
      end
  | FRaceReject scope =>
      match races s !! scope with
      | None => (s, Normal VUndefined)
      | Some r =>
          if settled r then (s, Normal VUndefined)
          else (reject (race_promise r) arg (set_settled scope s), Normal VUndefined)
      end
  | FAll scope index action =>
      match alls s !! scope with
      | None => (s, Normal VUndefined)
      | Some a =>
          match action with
          | ActReject => (reject (all_promise a) arg s, Normal VUndefined)
          | ActResolve =>
              let s1 := all_record scope index arg s in
              if decide (S (count a) = all_length a)
              then (resolve (all_promise a)
                      (VArray (array_set (result a) index arg)) s1, Normal VUndefined)
              else (s1, Normal VUndefined)
          end
      end
  | FResolvePromise invoked x promise =>
      if is_invoked invoked s then (s, Normal VUndefined)
      else
        let s1 := fire_latch invoked s in
        if same_object arg x then (s1, Throw thenable_cycle_error)
        else (resolveThenable arg promise s1, Normal VUndefined)
  | FRejectPromise invoked promise =>
      if is_invoked invoked s then (s, Normal VUndefined)
      else (reject promise arg (fire_latch invoked s), Normal VUndefined)
  end.

(** ** Static operations *)

Definition Promise_resolve (value : Value) (s : State) : State * nat :=
  let '(s1, promise) := new_Promise_empty s in
  (resolve promise value s1, promise).

Definition Promise_reject (reason : Value) (s : State) : State * nat :=
  let '(s1, promise) := new_Promise_empty s in
  (reject promise reason s1, promise).

Record Deferred := {
  d_promise : nat;
  d_resolve : Closure;
  d_reject : Closure
}.

Definition Promise_defer (s : State) : State * Deferred :=
  let '(s1, promise) := new_Promise_empty s in
  (s1, {| d_promise := promise; d_resolve := FResolve promise; d_reject := FReject promise |}).

Definition iterable_error : Value :=
  VTypeError "TypeError: Parameter `iterable` must be a iterable object".

Definition new_race (promise : nat) (s : State) : State :=
  with_races (races s ++ [{| race_promise := promise; settled := false |}]) s.

Definition new_all (promise length : nat) (s : State) : State :=
  with_alls (alls s ++ [{| all_promise := promise; all_length := length;
                           result := []; count := 0 |}]) s.

(** [if (!(iterate instanceof Promise)) iterate = Promise.resolve(iterate)]. *)
Definition coerce (iterate : Value) (s : State) : State * nat :=
  match iterate with
  | VPromise q => (s, q)
  | _ => Promise_resolve iterate s
  end.

Fixpoint race_loop (scope : nat) (xs : list Value) (s : State) : State :=
  match xs with
  | [] => s
  | iterate :: rest =>
      let '(s1, it) := coerce iterate s in
      race_loop scope rest
        (fst (then_ it (VClosure (FRaceResolve scope)) (VClosure (FRaceReject scope)) s1))
  end.

Fixpoint all_loop (scope : nat) (i : nat) (xs : list Value) (s : State) : State :=
  match xs with
  | [] => s
  | iterate :: rest =>
      let '(s1, it) := coerce iterate s in
      all_loop scope (S i) rest
        (fst (then_ it (VClosure (FAll scope i ActResolve))
                       (VClosure (FAll scope i ActReject)) s1))
  end.

Section Library.

(** The functions of the user, by name. *)
Variable user : nat -> UserFn.

(** [iterable && iterable.hasOwnProperty('length')], with the elements
    [iterable[0 .. length-1]]: arrays, non-empty strings (their
    characters), and functions (their arity; every index reads as
    [undefined]). *)
Definition array_like (iterable : Value) : option (list Value) :=
  match iterable with
  | VArray xs => Some xs
  | VStr "" => None
  | VStr str => Some ((fun c => VStr (String c "")) <$> list_ascii_of_string str)
  | VUserFn f => Some (replicate (fn_length (user f)) VUndefined)
  | VClosure _ => Some [VUndefined]
  | _ => None
  end.

Definition Promise_race (iterable : Value) (s : State) : State * Completion :=
  match array_like iterable with
  | None => (s, Throw iterable_error)
  | Some xs =>
      let '(s1, promise) := new_Promise_empty s in
      let scope := length (races s1) in
      (race_loop scope xs (new_race promise s1), Normal VUndefined)
  end.

Definition Promise_all (iterable : Value) (s : State) : State * Completion :=
  match array_like iterable with
  | None => (s, Throw iterable_error)
  | Some xs =>
      let '(s1, promise) := new_Promise_empty s in
      let scope := length (alls s1) in
      (all_loop scope 0 xs (new_all promise (length xs) s1), Normal VUndefined)
  end.

(** ** User code *)

Definition exec_cmd (c : Cmd) (s : State) : State * Completion :=
  match c with
  | CNew with_new resolver => Promise with_new resolver s
  | CThen this onResolve onReject =>
      let '(s', p) := then_ this onResolve onReject s in (s', Normal (VPromise p))
  | CDone this onResolve =>
      let '(s', p) := done this onResolve s in (s', Normal (VPromise p))
  | CFail this onReject =>
      let '(s', p) := fail this onReject s in (s', Normal (VPromise p))
  | CCatch this onFail =>
      let '(s', p) := catch this onFail s in (s', Normal (VPromise p))
  | CResolve value =>
      let '(s', p) := Promise_resolve value s in (s', Normal (VPromise p))
  | CReject reason =>
      let '(s', p) := Promise_reject reason s in (s', Normal (VPromise p))
  | CRace iterable => Promise_race iterable s
  | CAll iterable => Promise_all iterable s
  | CDefer => let '(s', d) := Promise_defer s in (s', Normal (VPromise (d_promise d)))
  | CCall c arg => call_closure c arg s
  end.

(** Statements in sequence; the first exception ends them. *)
Fixpoint exec_cmds (cs : list Cmd) (s : State) : State * option Value :=
  match cs with
  | [] => (s, None)
  | c :: rest =>
      match exec_cmd c s with
      | (s', Throw e) => (s', Some e)
      | (s', Normal _) => exec_cmds rest s'
      end
  end.

Definition log_call (f : nat) (arg : Value) (s : State) : State :=
  with_trace (trace s ++ [(f, arg)]) s.

Definition call_user (f : nat) (arg : Value) (s : State) : State * Completion :=
  let '(cmds, completion) := fn_body (user f) arg in
  match exec_cmds cmds (log_call f arg s) with
  | (s', Some e) => (s', Throw e)
  | (s', None) => (s', completion)
  end.

(** [typeof callback === 'function']. *)
Definition is_function (callback : Value) : bool :=
  match callback with
  | VUserFn _ | VClosure _ => true
  | _ => false
  end.

(** [callback(value)] for a [callback] that is a function. *)
Definition call_function (callback : Value) (arg : Value) (s : State) : State * Completion :=
  match callback with
  | VUserFn f => call_user f arg s
  | VClosure c => call_closure c arg s
  | _ => (s, Normal VUndefined)
  end.

(** ** [promiseCallback] *)

Definition same_promise_error : Value :=
  VTypeError "TypeError: The return value could not be same with the promise".

Definition promiseCallback (cb : Callback) (value : Value) (s : State) : State :=
  let promise := cb_promise cb in
  if is_function (cb_callback cb) then
    let '(s1, x) :=
      match call_function (cb_callback cb) value s with
      | (s', Normal x) => (s', x)
      | (s', Throw e) => (reject promise e s', VUndefined)
      end in
    match x with
    | VPromise q =>
        if decide (q = promise) then reject promise same_promise_error s1
        else fst (then_ q (VClosure (FResolve promise)) (VClosure (FReject promise)) s1)
    | _ => resolveThenable x promise s1
    end
  else
    match cb_action cb with
    | ActResolve => resolve promise value s
    | ActReject => reject promise value s
    end.

(** ** The timer queue *)

(** The function handed to [setTimeout]: the loop over [callbacks]. *)
Definition run_task (t : Task) (s : State) : State :=
  foldl (fun s cb => promiseCallback cb (task_value t) s) s (task_callbacks t).

(** The host fires the oldest timer. *)
Definition tick (s : State) : State :=
  match timers s with
  | [] => s
  | t :: rest => run_task t (with_timers rest s)
  end.

(** What happens next: user code at top level calls the library, or a timer
    fires. *)
Inductive Event :=
| ECmd (c : Cmd)
| ETick.

Definition step (e : Event) (s : State) : State :=
  match e with
  | ECmd c => fst (exec_cmd c s)
  | ETick => tick s
  end.

Definition steps (es : list Event) (s : State) : State :=
  foldl (fun s e => step e s) s es.

End Library.

(** ** Notions used in the statements *)

(** An assignment that takes the object [o] to [o'] keeps a status other
    than [PENDING], and the value that goes with it. *)
Definition keeps (o o' : PromiseObj) : Prop :=
  _status o ≠ PENDING -> _status o' = _status o ∧ _value o' = _value o.

(** Who is running: a function of the library, the body of a task (which
    also enters user handlers), or the scheduler (which also removes the
    timer it fires). *)
Inductive Agent := Library | TaskBody | Scheduler.

(** The elementary assignments every operation is made of. *)
Inductive mutation (who : Agent) : State -> State -> Prop :=
| mut_alloc s : mutation who s (alloc_promise s)
| mut_modify s p f :
    (forall o, heap s !! p = Some o -> keeps o (f o)) ->
    mutation who s (modify p f s)
| mut_timeout s t : mutation who s (setTimeout t s)
| mut_new_latch s : mutation who s (new_latch s)
| mut_fire s l : mutation who s (fire_latch l s)
| mut_new_race s p : mutation who s (new_race p s)
| mut_settled s sc : mutation who s (set_settled sc s)
| mut_new_all s p n : mutation who s (new_all p n s)
| mut_record s sc i v : mutation who s (all_record sc i v s)
| mut_log s f v : who ≠ Library -> mutation who s (log_call f v s)
| mut_fired s rest : who = Scheduler -> mutation who s (with_timers rest s).

(** Sequences of elementary assignments. *)
Abbreviation reach who := (rtc (mutation who)).

(** A promise that has left [PENDING] keeps its status and value. *)
Definition frozen (s s' : State) : Prop :=
  forall p o, heap s !! p = Some o ->
    exists o', heap s' !! p = Some o' ∧ keeps o o'.

(** A latch that has fired stays fired. *)
Definition latched (s s' : State) : Prop :=
  forall l, is_invoked l s = true -> is_invoked l s' = true.

(** Induction over values and the [then] bodies inside them. *)
Scheme Value_mut := Induction for Value Sort Prop
  with ThenMember_mut := Induction for ThenMember Sort Prop
  with ThenBody_mut := Induction for ThenBody Sort Prop
  with Closure_mut := Induction for Closure Sort Prop.

(** The promise a callback of the library settles, when that is all the
    callback does to the heap. *)
Definition closure_promise (s : State) (c : Closure) : option nat :=
  match c with
  | FResolve p | FReject p | FRejectPromise _ p => Some p
  | FRaceResolve sc | FRaceReject sc => race_promise <$> races s !! sc
  | FAll sc _ _ => all_promise <$> alls s !! sc
  | FResolvePromise _ _ _ => None
  end.

(** The user table used in examples: functions that call nothing and
    return their argument. *)
Definition identity_user : nat -> UserFn :=
  fun _ => {| fn_length := 1; fn_body := fun v => ([], Normal v) |}.

(** A state with promise 0 fulfilled with 1 and promise 1 pending. *)
Definition two_promises : State :=
  (Promise_defer (Promise_resolve (VNum 1) empty_state).1).1.

(** The calls of user handlers made by a task over [cbs]. *)
Definition handler_calls (cbs : list Callback) (value : Value) : list (nat * Value) :=
  flat_map (fun cb => match cb_callback cb with
                      | VUserFn f => [(f, value)]
                      | _ => []
                      end) cbs.

(** [this.then(h.1, h.2)] for each pair of [hs], in order. *)
Definition register (this : nat) (hs : list (Value * Value)) (s : State) : State :=
  foldl (fun s h => (then_ this h.1 h.2 s).1) s hs.

(** The callbacks [register] creates, the first new promise being [base]. *)
Definition registered (base : nat) (action : Action) (hs : list (Value * Value))
  : list Callback :=
  imap (fun i h => makeCallback (base + i)
                     (match action with ActResolve => h.1 | ActReject => h.2 end)
                     action) hs.

(** The user functions among the first (or second) components of [hs]. *)
Definition user_handlers (action : Action) (hs : list (Value * Value)) (v : Value)
  : list (nat * Value) :=
  flat_map (fun h => match (match action with ActResolve => h.1 | ActReject => h.2 end) with
                     | VUserFn f => [(f, v)]
                     | _ => []
                     end) hs.

(** The tasks scheduled by [register] on a settled promise whose queues
    are empty: one task for each registration. *)
Definition late_tasks (base : nat) (action : Action) (hs : list (Value * Value))
    (v : Value) : list Task :=
  imap (fun i h =>
          {| task_callbacks :=
               [makeCallback (base + i)
                  (match action with ActResolve => h.1 | ActReject => h.2 end) action];
             task_value := v |}) hs.

(** The calls of user handlers made by the tasks [ts], fired one after the
    other. *)
Definition task_calls (ts : list Task) : list (nat * Value) :=
  flat_map (fun t => handler_calls (task_callbacks t) (task_value t)) ts.

(** A user table whose functions call nothing and throw their argument. *)
Definition throwing_user : nat -> UserFn :=
  fun _ => {| fn_length := 1; fn_body := fun v => ([], Throw v) |}.

(** How the body of a foreign [then] ends when none of its calls throws. *)
Fixpoint body_end (body : ThenBody) : option Value :=
  match body with
  | TReturn => None
  | TThrow e => Some e
  | TResolve _ k | TResolveSelf k | TReject _ k => body_end k
  end.

(** The calls a resolver makes to the two functions it was given. *)
Fixpoint resolver_calls (body : ResolverBody) : list (Action * Value) :=
  match body with
  | RReturn | RThrow _ => []
  | RResolve data k => (ActResolve, data) :: resolver_calls k
  | RReject reason k => (ActReject, reason) :: resolver_calls k
  end.

(** The exception a resolver ends with, if any. *)
Fixpoint resolver_end (body : ResolverBody) : option Value :=
  match body with
  | RReturn => None
  | RThrow e => Some e
  | RResolve _ k | RReject _ k => resolver_end k
  end.

(** One call of [function (data) { resolve(promise, data) }] or of
    [function (reason) { reject(promise, reason) }]. *)
Definition apply_call (promise : nat) (s : State) (c : Action * Value) : State :=
  match c.1 with
  | ActResolve => resolve promise c.2 s
  | ActReject => reject promise c.2 s
  end.

(** An object whose [then] hands the object itself to its first
    argument. *)
Definition self_thenable : Value := VThenable 7 (ThenFn (TResolveSelf TReturn)).

(** A user table whose function 0 returns [self_thenable]; the others
    return their argument. *)
Definition self_user : nat -> UserFn :=
  fun f => {| fn_length := 1;
              fn_body := fun v => ([], Normal match f with
                                              | 0 => self_thenable
                                              | _ => v
                                              end) |}.

(** [Promise.resolve(1).then(f0)], then the timers that are due. *)
Definition self_thenable_run : State :=
  steps self_user
    [ECmd (CResolve (VNum 1)); ECmd (CThen 0 (VUserFn 0) VUndefined); ETick; ETick]
    empty_state.

(** A user table whose functions return an object whose [then] calls its
    first argument with 1, then with 2, then its second argument with 3,
    and ends by throwing 4. *)
Definition insistent_user : nat -> UserFn :=
  fun _ =>
    {| fn_length := 1;
       fn_body := fun _ =>
         ([], Normal (VThenable 9 (ThenFn
                 (TResolve (VNum 1) (TResolve (VNum 2)
                    (TReject (VNum 3) (TThrow (VNum 4)))))))) |}.

(** A user table whose function 0 creates a Deferred (promise 2 in the runs
    below) and returns its promise; the others return their argument. *)
Definition deferring_user : nat -> UserFn :=
  fun f =>
    {| fn_length := 1;
       fn_body := fun v =>
         match f with
         | 0 => ([CDefer], Normal (VPromise 2))
         | _ => ([], Normal v)
         end |}.

(** A user table whose functions return promise 1, the promise [then]
    returns in the run below. *)
Definition circular_user : nat -> UserFn :=
  fun _ => {| fn_length := 1; fn_body := fun _ => ([], Normal (VPromise 1)) |}.

(** ** Operations, and the shape of promise objects *)

(** The steps of the library at the level of its functions: the promise
    heap is written by the constructor, [resolve], [reject] and [then]
    only. *)
Inductive operation (who : Agent) : State -> State -> Prop :=
| op_alloc s : operation who s (alloc_promise s)
| op_resolve s p v : operation who s (resolve p v s)
| op_reject s p v : operation who s (reject p v s)
| op_then s this a b : operation who s (then_ this a b s).1
| op_new_latch s : operation who s (new_latch s)
| op_fire s l : operation who s (fire_latch l s)
| op_new_race s p : operation who s (new_race p s)
| op_settled s sc : operation who s (set_settled sc s)
| op_new_all s p n : operation who s (new_all p n s)
| op_record s sc i v : operation who s (all_record sc i v s)
| op_log s f v : who ≠ Library -> operation who s (log_call f v s)
| op_fired s rest : who = Scheduler -> operation who s (with_timers rest s).

(** Sequences of operations. *)
Abbreviation ops who := (rtc (operation who)).

(** A pending promise has no value yet; a settled one has empty queues. *)
Definition well_formed (o : PromiseObj) : Prop :=
  match _status o with
  | PENDING => _value o = VUndefined
  | _ => _doneCallbacks o = [] ∧ _failCallbacks o = []
  end.

Definition heap_ok (s : State) : Prop :=
  forall p o, heap s !! p = Some o -> well_formed o.

(** ** Further notions *)

(** [src/test/adapter.js]: the three factories handed to the conformance
    harness are the static functions themselves. *)
Definition resolved : Value -> State -> State * nat := Promise_resolve.
Definition rejected : Value -> State -> State * nat := Promise_reject.
Definition deferred : State -> State * Deferred := Promise_defer.

(** Values that are neither objects nor functions. *)
Definition primitive (x : Value) : bool :=
  match x with
  | VUndefined | VNull | VBool _ | VNum _ | VStr _ => true
  | _ => false
  end.

(** Values [resolveThenable] hands to [resolve] as they are: everything but
    promises and objects whose [then] is callable or throws when read. *)
Definition plain (x : Value) : bool :=
  match x with
  | VPromise _ => false
  | VThenable _ (ThenThrows _) | VThenable _ (ThenFn _) => false
  | _ => true
  end.

(** [v] wrapped in [n] objects, each of whose [then] hands the next one to
    its first argument and returns. *)
Fixpoint nest (n : nat) (v : Value) : Value :=
  match n with
  | 0 => v
  | S m => VThenable m (ThenFn (TResolve (nest m v) TReturn))
  end.

(** Promise 0 fulfilled with 1, promise 1 pending, and no timer waiting. *)
Definition quiet_promises : State := steps identity_user [ETick] two_promises.

(** The scope [sc] of a [race] call has seen its first settlement. *)
Definition race_settled (sc : nat) (s : State) : Prop :=
  exists r, races s !! sc = Some r ∧ settled r = true.

(** The ['resolve'] callbacks of the [all] scope [sc], called one after the
    other with the pairs (index, value) of [calls]. *)
Definition all_callbacks (sc : nat) (calls : list (nat * Value)) (s : State) : State :=
  foldl (fun s c => (call_closure (FAll sc c.1 ActResolve) c.2 s).1) s calls.

(** The writes [result[index] = value] of [calls], in order. *)
Definition array_sets (acc : list Value) (calls : list (nat * Value)) : list Value :=
  foldl (fun r c => array_set r c.1 c.2) acc calls.

(** The elements of [xs], each with its index. *)
Definition indexed (xs : list Value) : list (nat * Value) :=
  zip (seq 0 (length xs)) xs.

(** [iterate instanceof Promise] fails. *)
Definition not_promise (x : Value) : bool :=
  match x with
  | VPromise _ => false
  | _ => true
  end.

(** The timers [Promise.all] sets for inputs that are not promises: for
    each one, the task of [Promise.resolve] and the task of [then]. *)
Fixpoint all_tasks (base sc i : nat) (xs : list Value) : list Task :=
  match xs with
  | [] => []
  | x :: rest =>
      {| task_callbacks := []; task_value := x |}
      :: {| task_callbacks :=
              [makeCallback (S base) (VClosure (FAll sc i ActResolve)) ActResolve];
            task_value := x |}
      :: all_tasks (S (S base)) sc (S i) rest
  end.

(** * Properties *)

(** ** Elementary assignments

    An assignment to a promise object never changes the status or the value
    of an object that has left [PENDING]; a fired latch stays fired; the
    library alone enters no user handler; only the scheduler removes a
    timer. *)

Lemma keeps_refl o : keeps o o.
Proof. by intros _. Qed.

Lemma keeps_trans o1 o2 o3 : keeps o1 o2 -> keeps o2 o3 -> keeps o1 o3.
Proof.
  intros H12 H23 Hne. destruct (H12 Hne) as [Hs Hv].
  destruct H23 as [Hs' Hv']; [congruence|]. split; congruence.
Qed.

Lemma frozen_refl s : frozen s s.
Proof. intros p o Hp. exists o. split; [done | apply keeps_refl]. Qed.

Lemma frozen_trans s1 s2 s3 : frozen s1 s2 -> frozen s2 s3 -> frozen s1 s3.
Proof.
  intros H12 H23 p o Hp.
  destruct (H12 p o Hp) as (o2 & Hp2 & Hk2).
  destruct (H23 p o2 Hp2) as (o3 & Hp3 & Hk3).
  exists o3. split; [done | by eapply keeps_trans].
Qed.

Lemma frozen_same_heap s s' : heap s' = heap s -> frozen s s'.
Proof. intros Heq p o Hp. exists o. rewrite Heq. split; [done | apply keeps_refl]. Qed.

Lemma mutation_frozen who s s' : mutation who s s' -> frozen s s'.
Proof.
  destruct 1; try (by apply frozen_same_heap).
  - intros p o Hp. exists o. split; [| apply keeps_refl].
    cbn. by apply lookup_app_l_Some.
  - intros q o Hq. cbn. destruct (decide (p = q)) as [->|Hne].
    + exists (f o). rewrite list_lookup_alter_eq, Hq. split; [done | by apply H].
    + exists o. rewrite list_lookup_alter_ne; [|done]. split; [done | apply keeps_refl].
  - unfold set_settled. destruct (races s !! sc); by apply frozen_same_heap.
  - unfold all_record. destruct (alls s !! sc); by apply frozen_same_heap.
Qed.

Lemma reach_frozen who s s' : reach who s s' -> frozen s s'.
Proof.
  induction 1 as [|s1 s2 s3 Hstep _ IH]; [apply frozen_refl|].
  eapply frozen_trans; [by eapply mutation_frozen | done].
Qed.

Lemma mutation_trace s s' : mutation Library s s' -> trace s' = trace s.
Proof.
  destruct 1; try done.
  - unfold set_settled. by destruct (races s !! sc).
  - unfold all_record. by destruct (alls s !! sc).
Qed.

Lemma reach_trace s s' : reach Library s s' -> trace s' = trace s.
Proof.
  induction 1 as [|s1 s2 s3 Hstep _ IH]; [done|].
  rewrite IH. by apply mutation_trace.
Qed.

Lemma mutation_latched who s s' : mutation who s s' -> latched s s'.
Proof.
  destruct 1; intros j Hj; try done.
  - unfold is_invoked in *. cbn.
    destruct (latches s !! j) as [b|] eqn:Hl; [|done].
    by rewrite (lookup_app_l_Some _ _ _ _ Hl).
  - unfold is_invoked in *. cbn.
    destruct (latches s !! j) as [b|] eqn:Hl; [|done]. subst b.
    destruct (decide (l = j)) as [->|Hne].
    + rewrite list_lookup_insert_eq; [done | by eapply lookup_lt_Some].
    + by rewrite list_lookup_insert_ne, Hl.
  - unfold set_settled. by destruct (races s !! sc).
  - unfold all_record. by destruct (alls s !! sc).
Qed.

Lemma reach_latched who s s' : reach who s s' -> latched s s'.
Proof.
  induction 1 as [|s1 s2 s3 Hstep _ IH]; [by intros l Hl|].
  intros l Hl. apply IH. by eapply mutation_latched.
Qed.

Lemma mutation_library who s s' : mutation Library s s' -> mutation who s s'.
Proof. destruct 1; try (by constructor); done. Qed.

Lemma reach_library who s s' : reach Library s s' -> reach who s s'.
Proof.
  induction 1 as [|s1 s2 s3 Hstep _ IH]; [done|].
  eapply rtc_l; [by apply mutation_library | done].
Qed.

Lemma mutation_scheduler who s s' : mutation who s s' -> mutation Scheduler s s'.
Proof. destruct 1; by constructor. Qed.

Lemma reach_scheduler who s s' : reach who s s' -> reach Scheduler s s'.
Proof.
  induction 1 as [|s1 s2 s3 Hstep _ IH]; [done|].
  eapply rtc_l; [by eapply mutation_scheduler | done].
Qed.

(** Only the scheduler removes a timer: everything else adds timers at the
    end of the queue. *)
Lemma mutation_timers who s s' :
  who ≠ Scheduler -> mutation who s s' -> exists new, timers s' = timers s ++ new.
Proof.
  intros Hwho. destruct 1; try (by exists []; rewrite app_nil_r).
  - by exists [t].
  - exists []. rewrite app_nil_r. unfold set_settled. by destruct (races s !! sc).
  - exists []. rewrite app_nil_r. unfold all_record. by destruct (alls s !! sc).
Qed.

Lemma reach_timers who s s' :
  who ≠ Scheduler -> reach who s s' -> exists new, timers s' = timers s ++ new.
Proof.
  intros Hwho. induction 1 as [s|s1 s2 s3 Hstep _ IH].
  - exists []. by rewrite app_nil_r.
  - destruct (mutation_timers _ _ _ Hwho Hstep) as [new1 H1].
    destruct IH as [new2 H2]. exists (new1 ++ new2). by rewrite H2, H1, app_assoc.
Qed.

(** ** Every operation is a sequence of elementary assignments *)

Section Reach.

Variable who : Agent.

Lemma settle_reach p st v s :
  status_of p s = Some PENDING -> reach who s (settle p st v s).
Proof.
  intros Hp. apply rtc_once, mut_modify. intros o Ho Hne.
  unfold status_of in Hp. rewrite Ho in Hp. by simplify_eq/=.
Qed.

Lemma push_done_reach p cb s : reach who s (push_done p cb s).
Proof. apply rtc_once, mut_modify. by intros o _ _. Qed.

Lemma push_fail_reach p cb s : reach who s (push_fail p cb s).
Proof. apply rtc_once, mut_modify. by intros o _ _. Qed.

Lemma clear_callbacks_reach p s : reach who s (clear_callbacks p s).
Proof. apply rtc_once, mut_modify. by intros o _ _. Qed.

Lemma run_reach p s : reach who s (run p s).
Proof.
  unfold run. destruct (heap s !! p) as [o|]; [|done].
  destruct (_status o); [done| |];
    (etrans; [apply rtc_once, mut_timeout | apply clear_callbacks_reach]).
Qed.

Lemma resolve_reach p data s : reach who s (resolve p data s).
Proof.
  unfold resolve. destruct (status_of p s) as [[]|] eqn:Hp; try done.
  etrans; [by apply settle_reach | apply run_reach].
Qed.

Lemma reject_reach p reason s : reach who s (reject p reason s).
Proof.
  unfold reject. destruct (status_of p s) as [[]|] eqn:Hp; try done.
  etrans; [by apply settle_reach | apply run_reach].
Qed.

Lemma then_reach this onResolve onReject s :
  reach who s (then_ this onResolve onReject s).1.
Proof.
  unfold then_, new_Promise_empty. cbn.
  etrans; [apply rtc_once, mut_alloc|].
  etrans; [apply push_done_reach|].
  etrans; [apply push_fail_reach|]. apply run_reach.
Qed.

Lemma call_resolver_reach body p s : reach who s (call_resolver body p s).1.
Proof.
  revert s. induction body as [| |data k IH|reason k IH]; intros s; cbn; try done.
  - etrans; [apply resolve_reach | apply IH].
  - etrans; [apply reject_reach | apply IH].
Qed.

Lemma Promise_reach is_instance resolver s :
  reach who s (Promise is_instance resolver s).1.
Proof.
  unfold Promise. destruct is_instance; [|done]. destruct resolver as [body|]; [|done].
  cbn. pose proof (call_resolver_reach body (length (heap s)) (alloc_promise s)) as H.
  destruct (call_resolver _ _ _) as [s' [e|]]; cbn in *;
    (etrans; [apply rtc_once, mut_alloc | done]).
Qed.

Lemma resolveThenable_call_then_reach :
  (forall x p s, reach who s (resolveThenable x p s)) ∧
  (forall body l x p s, reach who s (call_then body l x p s).1).
Proof.
  assert (forall x,
    (fun x => forall p s, reach who s (resolveThenable x p s)) x) as HV.
  { apply (Value_mut
      (fun x => forall p s, reach who s (resolveThenable x p s))
      (fun m => forall id p s, reach who s (resolveThenable (VThenable id m) p s))
      (fun body => forall l x p s, reach who s (call_then body l x p s).1)
      (fun _ => True)); try done; intros; cbn [resolveThenable call_then fst];
      try apply resolve_reach; try apply reject_reach.
    - etrans; [apply rtc_once, mut_new_latch | apply then_reach].
    - pose proof (H (length (latches s)) (VThenable id (ThenFn body)) p (new_latch s)) as Hb.
      destruct (call_then _ _ _ _ _) as [s' [e|]]; cbn in Hb.
      + destruct (is_invoked _ s').
        * etrans; [apply rtc_once, mut_new_latch | done].
        * etrans; [apply rtc_once, mut_new_latch|].
          etrans; [done | apply reject_reach].
      + etrans; [apply rtc_once, mut_new_latch | done].
    - destruct (is_invoked l s); [auto|].
      destruct (same_object y x); cbn; [apply rtc_once, mut_fire|].
      etrans; [apply rtc_once, mut_fire|]. etrans; [apply H | apply H0].
    - destruct (is_invoked l s); [auto|]. cbn. apply rtc_once, mut_fire.
    - destruct (is_invoked l s); [auto|].
      etrans; [apply rtc_once, mut_fire|]. etrans; [apply reject_reach | apply H0]. }
  split; [done|].
  induction body as [| |y k IH|k IH|e k IH]; intros l x p s;
    cbn [resolveThenable call_then fst]; try done.
  - destruct (is_invoked l s); [auto|].
    destruct (same_object y x); cbn; [apply rtc_once, mut_fire|].
    etrans; [apply rtc_once, mut_fire|]. etrans; [apply HV | apply IH].
  - destruct (is_invoked l s); [auto|]. cbn. apply rtc_once, mut_fire.
  - destruct (is_invoked l s); [auto|].
    etrans; [apply rtc_once, mut_fire|]. etrans; [apply reject_reach | apply IH].
Qed.

Lemma resolveThenable_reach x p s : reach who s (resolveThenable x p s).
Proof. apply resolveThenable_call_then_reach. Qed.

Lemma call_then_reach body l x p s : reach who s (call_then body l x p s).1.
Proof. apply resolveThenable_call_then_reach. Qed.

End Reach.

Section ReachLibrary.

Variable user : nat -> UserFn.
Variable who : Agent.

Lemma call_closure_reach c arg s : reach who s (call_closure c arg s).1.
Proof.
  destruct c as [p|p|sc|sc|sc i [] |l x p|l p]; cbn [call_closure].
  - apply resolve_reach.
  - apply reject_reach.
  - destruct (races s !! sc) as [r|]; [|done]. destruct (settled r); [done|].
    etrans; [apply rtc_once, mut_settled | apply resolve_reach].
  - destruct (races s !! sc) as [r|]; [|done]. destruct (settled r); [done|].
    etrans; [apply rtc_once, mut_settled | apply reject_reach].
  - destruct (alls s !! sc) as [a|]; [|done]. case_decide; cbn [fst].
    + etrans; [apply rtc_once, mut_record | apply resolve_reach].
    + apply rtc_once, mut_record.
  - destruct (alls s !! sc) as [a|]; [|done]. apply reject_reach.
  - destruct (is_invoked l s); [done|]. destruct (same_object arg x); cbn [fst].
    + apply rtc_once, mut_fire.
    + etrans; [apply rtc_once, mut_fire | apply resolveThenable_reach].
  - destruct (is_invoked l s); [done|].
    etrans; [apply rtc_once, mut_fire | apply reject_reach].
Qed.

Lemma Promise_resolve_reach value s : reach who s (Promise_resolve value s).1.
Proof. etrans; [apply rtc_once, mut_alloc | apply resolve_reach]. Qed.

Lemma Promise_reject_reach reason s : reach who s (Promise_reject reason s).1.
Proof. etrans; [apply rtc_once, mut_alloc | apply reject_reach]. Qed.

Lemma Promise_defer_reach s : reach who s (Promise_defer s).1.
Proof. apply rtc_once, mut_alloc. Qed.

Lemma coerce_reach iterate s : reach who s (coerce iterate s).1.
Proof. destruct iterate; try apply Promise_resolve_reach. done. Qed.

Lemma race_loop_reach scope xs s : reach who s (race_loop scope xs s).
Proof.
  revert s. induction xs as [|iterate rest IH]; intros s; cbn [race_loop]; [done|].
  pose proof (coerce_reach iterate s) as Hc. destruct (coerce iterate s) as [s1 it].
  etrans; [exact Hc|]. etrans; [apply then_reach | apply IH].
Qed.

Lemma all_loop_reach scope i xs s : reach who s (all_loop scope i xs s).
Proof.
  revert i s. induction xs as [|iterate rest IH]; intros i s; cbn [all_loop]; [done|].
  pose proof (coerce_reach iterate s) as Hc. destruct (coerce iterate s) as [s1 it].
  etrans; [exact Hc|]. etrans; [apply then_reach | apply IH].
Qed.

Lemma Promise_race_reach iterable s : reach who s (Promise_race user iterable s).1.
Proof.
  unfold Promise_race. destruct (array_like user iterable) as [xs|]; [|done].
  cbn [new_Promise_empty fst]. etrans; [apply rtc_once, mut_alloc|].
  etrans; [apply rtc_once, mut_new_race | apply race_loop_reach].
Qed.

Lemma Promise_all_reach iterable s : reach who s (Promise_all user iterable s).1.
Proof.
  unfold Promise_all. destruct (array_like user iterable) as [xs|]; [|done].
  cbn [new_Promise_empty fst]. etrans; [apply rtc_once, mut_alloc|].
  etrans; [apply rtc_once, mut_new_all | apply all_loop_reach].
Qed.

Lemma exec_cmd_reach c s : reach who s (exec_cmd user c s).1.
Proof.
  destruct c; cbn [exec_cmd].
  - apply Promise_reach.
  - pose proof (then_reach who this onResolve onReject s). by destruct (then_ _ _ _ _).
  - pose proof (then_reach who this onResolve VNull s). unfold done.
    by destruct (then_ _ _ _ _).
  - pose proof (then_reach who this VNull onReject s). unfold fail.
    by destruct (then_ _ _ _ _).
  - pose proof (then_reach who this VNull onFail s). unfold catch.
    by destruct (then_ _ _ _ _).
  - pose proof (Promise_resolve_reach value s). by destruct (Promise_resolve _ _).
  - pose proof (Promise_reject_reach reason s). by destruct (Promise_reject _ _).
  - apply Promise_race_reach.
  - apply Promise_all_reach.
  - apply Promise_defer_reach.
  - apply call_closure_reach.
Qed.

Lemma exec_cmds_reach cs s : reach who s (exec_cmds user cs s).1.
Proof.
  revert s. induction cs as [|c rest IH]; intros s; cbn [exec_cmds]; [done|].
  pose proof (exec_cmd_reach c s) as Hc. destruct (exec_cmd user c s) as [s' [v|e]].
  - etrans; [exact Hc | apply IH].
  - exact Hc.
Qed.

End ReachLibrary.

Section ReachHost.

Variable user : nat -> UserFn.

Lemma call_user_reach f arg s : reach TaskBody s (call_user user f arg s).1.
Proof.
  unfold call_user. destruct (fn_body (user f) arg) as [cmds completion].
  pose proof (exec_cmds_reach user TaskBody cmds (log_call f arg s)) as Hc.
  destruct (exec_cmds user cmds _) as [s' [e|]]; cbn [fst] in *;
    (etrans; [by apply rtc_once, mut_log | done]).
Qed.

Lemma call_function_reach callback arg s :
  reach TaskBody s (call_function user callback arg s).1.
Proof.
  destruct callback; cbn [call_function fst]; try done.
  - apply call_user_reach.
  - apply call_closure_reach.
Qed.

Lemma promiseCallback_reach cb value s : reach TaskBody s (promiseCallback user cb value s).
Proof.
  unfold promiseCallback. destruct (is_function (cb_callback cb)).
  - pose proof (call_function_reach (cb_callback cb) value s) as Hc.
    destruct (call_function user _ _ _) as [s' [x|e]]; cbn [fst] in Hc.
    + etrans; [exact Hc|]. destruct x; try apply resolveThenable_reach.
      case_decide; [apply reject_reach | apply then_reach].
    + etrans; [exact Hc|]. etrans; [apply reject_reach | apply resolveThenable_reach].
  - destruct (cb_action cb); [apply resolve_reach | apply reject_reach].
Qed.

Lemma run_callbacks_reach value cbs s :
  reach TaskBody s (foldl (fun s cb => promiseCallback user cb value s) s cbs).
Proof.
  revert s. induction cbs as [|cb rest IH]; intros s; cbn [foldl]; [done|].
  etrans; [apply promiseCallback_reach | apply IH].
Qed.

Lemma run_task_reach t s : reach TaskBody s (run_task user t s).
Proof. apply run_callbacks_reach. Qed.

Lemma tick_reach s : reach Scheduler s (tick user s).
Proof.
  unfold tick. destruct (timers s) as [|t rest]; [done|].
  etrans; [by apply rtc_once, (mut_fired Scheduler s rest)
         | apply (reach_scheduler TaskBody), run_task_reach].
Qed.

Lemma step_reach e s : reach Scheduler s (step user e s).
Proof. destruct e; [apply exec_cmd_reach | apply tick_reach]. Qed.

Lemma steps_reach es s : reach Scheduler s (steps user es s).
Proof.
  revert s. induction es as [|e rest IH]; intros s; cbn [steps foldl]; [done|].
  etrans; [apply step_reach | apply IH].
Qed.

End ReachHost.

(** ** The state machine *)

Lemma alter_known (f : PromiseObj -> PromiseObj) p o (h : list PromiseObj) :
  h !! p = Some o -> alter f p h = <[p := f o]> h.
Proof.
  intros Hp. apply list_eq. intros i. destruct (decide (p = i)) as [<-|Hne].
  - rewrite list_lookup_alter_eq, Hp.
    rewrite list_lookup_insert_eq; [done | by eapply lookup_lt_Some].
  - by rewrite list_lookup_alter_ne, list_lookup_insert_ne.
Qed.

(** [run] on a promise that has left [PENDING]. *)
Lemma run_settled p o s :
  heap s !! p = Some o -> _status o ≠ PENDING ->
  run p s =
    with_heap (<[p := {| _status := _status o; _value := _value o;
                         _doneCallbacks := []; _failCallbacks := [] |}]> (heap s))
      (with_timers (timers s ++
         [{| task_callbacks := match _status o with
                               | FULLFILLED => _doneCallbacks o
                               | _ => _failCallbacks o
                               end;
             task_value := _value o |}]) s).
Proof.
  intros Hp Hne. unfold run. rewrite Hp.
  destruct (_status o) eqn:Hst; [done| |];
    unfold clear_callbacks, modify, setTimeout, with_heap, with_timers; cbn;
    by rewrite (alter_known _ _ _ _ Hp), Hst.
Qed.

Lemma run_pending p o s :
  heap s !! p = Some o -> _status o = PENDING -> run p s = s.
Proof. intros Hp Hst. unfold run. by rewrite Hp, Hst. Qed.

Lemma resolve_pending p o data s :
  heap s !! p = Some o -> _status o = PENDING ->
  resolve p data s =
    with_heap (<[p := {| _status := FULLFILLED; _value := data;
                         _doneCallbacks := []; _failCallbacks := [] |}]> (heap s))
      (with_timers (timers s ++
         [{| task_callbacks := _doneCallbacks o; task_value := data |}]) s).
Proof.
  intros Hp Hst. unfold resolve, status_of. rewrite Hp. cbn. rewrite Hst.
  unfold settle, modify. rewrite (alter_known _ _ _ _ Hp).
  erewrite run_settled; cbn;
    [| apply list_lookup_insert_eq; by eapply lookup_lt_Some | done].
  unfold with_heap, with_timers. cbn. by rewrite list_insert_insert_eq.
Qed.

Lemma reject_pending p o reason s :
  heap s !! p = Some o -> _status o = PENDING ->
  reject p reason s =
    with_heap (<[p := {| _status := REJECTED; _value := reason;
                         _doneCallbacks := []; _failCallbacks := [] |}]> (heap s))
      (with_timers (timers s ++
         [{| task_callbacks := _failCallbacks o; task_value := reason |}]) s).
Proof.
  intros Hp Hst. unfold reject, status_of. rewrite Hp. cbn. rewrite Hst.
  unfold settle, modify. rewrite (alter_known _ _ _ _ Hp).
  erewrite run_settled; cbn;
    [| apply list_lookup_insert_eq; by eapply lookup_lt_Some | done].
  unfold with_heap, with_timers. cbn. by rewrite list_insert_insert_eq.
Qed.

Lemma resolve_settled p o data s :
  heap s !! p = Some o -> _status o ≠ PENDING -> resolve p data s = s.
Proof.
  intros Hp Hne. unfold resolve, status_of. rewrite Hp. cbn. by destruct (_status o).
Qed.

Lemma reject_settled p o reason s :
  heap s !! p = Some o -> _status o ≠ PENDING -> reject p reason s = s.
Proof.
  intros Hp Hne. unfold reject, status_of. rewrite Hp. cbn. by destruct (_status o).
Qed.

Lemma resolve_status p o data s :
  heap s !! p = Some o -> _status o = PENDING ->
  status_of p (resolve p data s) = Some FULLFILLED ∧
  value_of p (resolve p data s) = Some data.
Proof.
  intros Hp Hst. rewrite (resolve_pending _ _ _ _ Hp Hst).
  unfold status_of, value_of. cbn.
  rewrite list_lookup_insert_eq; [done | by eapply lookup_lt_Some].
Qed.

Lemma reject_status p o reason s :
  heap s !! p = Some o -> _status o = PENDING ->
  status_of p (reject p reason s) = Some REJECTED ∧
  value_of p (reject p reason s) = Some reason.
Proof.
  intros Hp Hst. rewrite (reject_pending _ _ _ _ Hp Hst).
  unfold status_of, value_of. cbn.
  rewrite list_lookup_insert_eq; [done | by eapply lookup_lt_Some].
Qed.

(** A settled promise keeps its status and value along any sequence of
    assignments. *)
Lemma frozen_settled s s' p st v :
  frozen s s' -> status_of p s = Some st -> st ≠ PENDING -> value_of p s = Some v ->
  status_of p s' = Some st ∧ value_of p s' = Some v.
Proof.
  unfold status_of, value_of. intros Hf Hst Hne Hv.
  destruct (heap s !! p) as [o|] eqn:Hp; [|done]. cbn in *. simplify_eq.
  destruct (Hf p o Hp) as (o' & -> & Hk). cbn.
  destruct (Hk Hne) as [-> ->]. done.
Qed.

Lemma call_closure_settled s c p o arg :
  closure_promise s c = Some p -> heap s !! p = Some o -> _status o ≠ PENDING ->
  heap (call_closure c arg s).1 = heap s.
Proof.
  intros Hc Hp Hne.
  destruct c as [q|q|sc|sc|sc i act|l x q|l q]; cbn in Hc; simplify_eq; cbn [call_closure].
  - by rewrite (resolve_settled _ _ _ _ Hp Hne).
  - by rewrite (reject_settled _ _ _ _ Hp Hne).
  - destruct (races s !! sc) as [r|] eqn:Hr; [|done]. cbn in Hc. simplify_eq.
    destruct (settled r); [done|]. cbn [fst].
    erewrite resolve_settled; [| |exact Hne]; unfold set_settled; by rewrite Hr.
  - destruct (races s !! sc) as [r|] eqn:Hr; [|done]. cbn in Hc. simplify_eq.
    destruct (settled r); [done|]. cbn [fst].
    erewrite reject_settled; [| |exact Hne]; unfold set_settled; by rewrite Hr.
  - destruct (alls s !! sc) as [a|] eqn:Ha; [|done]. cbn in Hc. simplify_eq.
    destruct act.
    + case_decide; cbn [fst].
      * erewrite resolve_settled; [| |exact Hne]; unfold all_record; by rewrite Ha.
      * unfold all_record. by rewrite Ha.
    + by rewrite (reject_settled _ _ _ _ Hp Hne).
  - destruct (is_invoked l s); [done|]. cbn [fst].
    by erewrite reject_settled.
Qed.

(** The two functions of a Deferred are [FResolve] and [FReject] of its
    promise. *)
Lemma Promise_defer_closures s :
  let d := (Promise_defer s).2 in
  d_promise d = length (heap s) ∧
  d_resolve d = FResolve (d_promise d) ∧ d_reject d = FReject (d_promise d).
Proof. done. Qed.

Lemma call_closure_normal s c p arg :
  closure_promise s c = Some p -> (call_closure c arg s).2 = Normal VUndefined.
Proof.
  intros Hc. destruct c as [q|q|sc|sc|sc i act|l x q|l q]; cbn in Hc; try done;
    cbn [call_closure].
  - destruct (races s !! sc) as [r|]; [|done]. by destruct (settled r).
  - destruct (races s !! sc) as [r|]; [|done]. by destruct (settled r).
  - destruct (alls s !! sc) as [a|]; [|done]. destruct act; [|done]. by case_decide.
  - by destruct (is_invoked l s).
Qed.

(** C5. The status of a promise changes at most once, from [PENDING] to
    [FULLFILLED] or to [REJECTED]: on a pending promise [resolve] and
    [reject] set the status and the value; once the promise has left
    [PENDING], [resolve] and [reject] return the state as it is, so do the
    two functions of a Deferred, the callbacks of [race] and [all] and the
    other callbacks aimed at the promise leave every promise object as it
    is, and no sequence of library calls and timer tasks changes its status
    or its value. *)
Theorem status_transitions_at_most_once
    (user : nat -> UserFn) (s : State) (p : nat) (o : PromiseObj) :
  heap s !! p = Some o ->
  (_status o = PENDING -> forall v,
     (status_of p (resolve p v s) = Some FULLFILLED ∧
      value_of p (resolve p v s) = Some v) ∧
     (status_of p (reject p v s) = Some REJECTED ∧
      value_of p (reject p v s) = Some v)) ∧
  (_status o ≠ PENDING ->
     (forall v, resolve p v s = s ∧ reject p v s = s) ∧
     (forall v, call_closure (FResolve p) v s = (s, Normal VUndefined) ∧
                call_closure (FReject p) v s = (s, Normal VUndefined)) ∧
     (forall c v, closure_promise s c = Some p ->
        heap (call_closure c v s).1 = heap s ∧
        (call_closure c v s).2 = Normal VUndefined) ∧
     (forall es, exists o',
        heap (steps user es s) !! p = Some o' ∧
        _status o' = _status o ∧ _value o' = _value o)).
Proof.
  intros Hp. split.
  - intros Hst v. split; [by eapply resolve_status | by eapply reject_status].
  - intros Hne. split; [|split; [|split]].
    + intros v. split; [by eapply resolve_settled | by eapply reject_settled].
    + intros v. cbn [call_closure].
      by rewrite (resolve_settled _ _ _ _ Hp Hne), (reject_settled _ _ _ _ Hp Hne).
    + intros c v Hc. split; [by eapply call_closure_settled | by eapply call_closure_normal].
    + intros es. destruct (reach_frozen _ _ _ (steps_reach user es s) p o Hp) as (o' & Ho' & Hk).
      exists o'. split; [done|]. by apply Hk.
Qed.

Lemma status_transitions_at_most_once_witness :
  (status_of 1 (resolve 1 (VNum 2) two_promises) = Some FULLFILLED ∧
   status_of 1 (reject 1 (VNum 2) two_promises) = Some REJECTED) ∧
  (resolve 0 (VNum 2) two_promises = two_promises ∧
   reject 0 (VNum 2) two_promises = two_promises) ∧
  value_of 0 (steps identity_user [ECmd (CCall (FReject 0) (VNum 3)); ETick] two_promises)
    = Some (VNum 1).
Proof.
  split; [|split].
  - destruct (status_transitions_at_most_once identity_user two_promises 1
                fresh_promise eq_refl) as [H _].
    destruct (H eq_refl (VNum 2)) as [[H1 _] [H2 _]]. by split.
  - destruct (status_transitions_at_most_once identity_user two_promises 0
                {| _status := FULLFILLED; _value := VNum 1;
                   _doneCallbacks := []; _failCallbacks := [] |} eq_refl) as [_ H].
    destruct H as [H _]; [done|]. apply H.
  - destruct (status_transitions_at_most_once identity_user two_promises 0
                {| _status := FULLFILLED; _value := VNum 1;
                   _doneCallbacks := []; _failCallbacks := [] |} eq_refl) as [_ H].
    destruct H as (_ & _ & _ & H); [done|].
    destruct (H [ECmd (CCall (FReject 0) (VNum 3)); ETick]) as (o' & Ho' & _ & Hv).
    unfold value_of. rewrite Ho'. cbn. by rewrite Hv.
Defined.

(** ** [then] *)

Lemma then_promise this onResolve onReject s :
  (then_ this onResolve onReject s).2 = length (heap s).
Proof. done. Qed.

(** [then] on a pending promise: the two callbacks join the queues. *)
Lemma then_pending this o onResolve onReject s :
  heap s !! this = Some o -> _status o = PENDING ->
  (then_ this onResolve onReject s).1 =
    with_heap (<[this := {| _status := PENDING; _value := _value o;
        _doneCallbacks :=
          _doneCallbacks o ++ [makeCallback (length (heap s)) onResolve ActResolve];
        _failCallbacks :=
          _failCallbacks o ++ [makeCallback (length (heap s)) onReject ActReject] |}]>
      (heap s ++ [fresh_promise])) s.
Proof.
  intros Hp Hst. unfold then_, new_Promise_empty. cbn [fst].
  assert ((heap s ++ [fresh_promise]) !! this = Some o) as Hp1
    by by apply lookup_app_l_Some.
  unfold push_done, push_fail, modify, alloc_promise. cbn.
  rewrite (alter_known _ _ _ _ Hp1).
  erewrite alter_known; [|apply list_lookup_insert_eq; by eapply lookup_lt_Some].
  cbn. rewrite list_insert_insert_eq.
  erewrite run_pending; cbn;
    [| apply list_lookup_insert_eq; by eapply lookup_lt_Some | done].
  unfold with_heap. cbn. by rewrite Hst.
Qed.

(** [then] on a promise that has left [PENDING]: a task is scheduled with
    the callback of the matching queue, and both queues are emptied. *)
Lemma then_settled this o onResolve onReject s :
  heap s !! this = Some o -> _status o ≠ PENDING ->
  (then_ this onResolve onReject s).1 =
    with_heap (<[this := {| _status := _status o; _value := _value o;
                            _doneCallbacks := []; _failCallbacks := [] |}]>
                 (heap s ++ [fresh_promise]))
      (with_timers (timers s ++
         [{| task_callbacks :=
               match _status o with
               | FULLFILLED =>
                   _doneCallbacks o ++ [makeCallback (length (heap s)) onResolve ActResolve]
               | _ =>
                   _failCallbacks o ++ [makeCallback (length (heap s)) onReject ActReject]
               end;
             task_value := _value o |}]) s).
Proof.
  intros Hp Hne. unfold then_, new_Promise_empty. cbn [fst].
  assert ((heap s ++ [fresh_promise]) !! this = Some o) as Hp1
    by by apply lookup_app_l_Some.
  unfold push_done, push_fail, modify, alloc_promise. cbn.
  rewrite (alter_known _ _ _ _ Hp1).
  erewrite alter_known; [|apply list_lookup_insert_eq; by eapply lookup_lt_Some].
  cbn. rewrite list_insert_insert_eq.
  erewrite run_settled; cbn;
    [| apply list_lookup_insert_eq; by eapply lookup_lt_Some | done].
  unfold with_heap, with_timers. cbn. rewrite list_insert_insert_eq.
  by destruct (_status o).
Qed.

(** C9. [F.then(a, b)] leaves the status and the value of [F] as they are,
    and every other promise object untouched.  On a pending [F] the two
    callbacks are appended to its queues; on a settled [F] a task with the
    matching queue is scheduled and both queues are emptied. *)
Theorem then_keeps_status_and_value
    (s : State) (this : nat) (o : PromiseObj) (onResolve onReject : Value) :
  heap s !! this = Some o ->
  let s' := (then_ this onResolve onReject s).1 in
  let promise := (then_ this onResolve onReject s).2 in
  (exists o', heap s' !! this = Some o' ∧
     _status o' = _status o ∧ _value o' = _value o ∧
     match _status o with
     | PENDING =>
         _doneCallbacks o' = _doneCallbacks o ++ [makeCallback promise onResolve ActResolve] ∧
         _failCallbacks o' = _failCallbacks o ++ [makeCallback promise onReject ActReject] ∧
         timers s' = timers s
     | FULLFILLED =>
         _doneCallbacks o' = [] ∧ _failCallbacks o' = [] ∧
         timers s' = timers s ++
           [{| task_callbacks :=
                 _doneCallbacks o ++ [makeCallback promise onResolve ActResolve];
               task_value := _value o |}]
     | REJECTED =>
         _doneCallbacks o' = [] ∧ _failCallbacks o' = [] ∧
         timers s' = timers s ++
           [{| task_callbacks :=
                 _failCallbacks o ++ [makeCallback promise onReject ActReject];
               task_value := _value o |}]
     end) ∧
  (forall q oq, q ≠ this -> heap s !! q = Some oq -> heap s' !! q = Some oq).
Proof.
  intros Hp s' promise. subst s' promise. rewrite then_promise.
  assert (this < length (heap s ++ [fresh_promise])) as Hlt.
  { rewrite length_app. apply lookup_lt_Some in Hp. lia. }
  destruct (_status o) eqn:Hst.
  - rewrite (then_pending _ _ _ _ _ Hp Hst). cbn. split.
    + eexists. split; [by apply list_lookup_insert_eq|]. by cbn.
    + intros q oq Hq Hoq. rewrite list_lookup_insert_ne; [|done].
      by apply lookup_app_l_Some.
  - rewrite (then_settled _ o); [|done|by rewrite Hst]. cbn. split.
    + eexists. split; [by apply list_lookup_insert_eq|]. cbn. by rewrite Hst.
    + intros q oq Hq Hoq. rewrite list_lookup_insert_ne; [|done].
      by apply lookup_app_l_Some.
  - rewrite (then_settled _ o); [|done|by rewrite Hst]. cbn. split.
    + eexists. split; [by apply list_lookup_insert_eq|]. cbn. by rewrite Hst.
    + intros q oq Hq Hoq. rewrite list_lookup_insert_ne; [|done].
      by apply lookup_app_l_Some.
Qed.

Lemma then_keeps_status_and_value_witness :
  heap two_promises !! 0 =
    Some {| _status := FULLFILLED; _value := VNum 1;
            _doneCallbacks := []; _failCallbacks := [] |} ∧
  status_of 0 (then_ 0 (VUserFn 0) VUndefined two_promises).1 = Some FULLFILLED ∧
  value_of 0 (then_ 0 (VUserFn 0) VUndefined two_promises).1 = Some (VNum 1).
Proof.
  split; [done|].
  destruct (then_keeps_status_and_value two_promises 0
              {| _status := FULLFILLED; _value := VNum 1;
                 _doneCallbacks := []; _failCallbacks := [] |}
              (VUserFn 0) VUndefined eq_refl) as [(o' & Ho' & Hs & Hv & _) _].
  unfold status_of, value_of. rewrite Ho'. cbn. by rewrite Hs, Hv.
Defined.

(** ** Handlers are called by timer tasks only *)

Section Dispatch.

Variable user : nat -> UserFn.

Lemma promiseCallback_trace cb value s :
  trace (promiseCallback user cb value s) = trace s ++ handler_calls [cb] value.
Proof.
  unfold promiseCallback, handler_calls. cbn [flat_map]. rewrite app_nil_r.
  destruct (cb_callback cb) as [| | | | | | | | |f|c]; cbn [is_function call_function];
    try (rewrite app_nil_r;
         destruct (cb_action cb);
         [apply (reach_trace _ _ (resolve_reach Library _ _ _))
         |apply (reach_trace _ _ (reject_reach Library _ _ _))]).
  - unfold call_user. destruct (fn_body (user f) value) as [cmds completion].
    pose proof (reach_trace _ _ (exec_cmds_reach user Library cmds (log_call f value s))) as Hc.
    cbn in Hc. rewrite <- Hc.
    destruct (exec_cmds user cmds _) as [s' [e|]]; cbn [fst].
    + rewrite (reach_trace _ _ (resolveThenable_reach Library _ _ _)).
      apply (reach_trace _ _ (reject_reach Library _ _ _)).
    + destruct completion as [x|e].
      * destruct x; try apply (reach_trace _ _ (resolveThenable_reach Library _ _ _)).
        case_decide; [apply (reach_trace _ _ (reject_reach Library _ _ _))
                     |apply (reach_trace _ _ (then_reach Library _ _ _ _))].
      * rewrite (reach_trace _ _ (resolveThenable_reach Library _ _ _)).
        apply (reach_trace _ _ (reject_reach Library _ _ _)).
  - rewrite app_nil_r.
    pose proof (reach_trace _ _ (call_closure_reach Library c value s)) as Hc.
    rewrite <- Hc. destruct (call_closure c value s) as [s' [x|e]]; cbn [fst].
    + destruct x; try apply (reach_trace _ _ (resolveThenable_reach Library _ _ _)).
      case_decide; [apply (reach_trace _ _ (reject_reach Library _ _ _))
                   |apply (reach_trace _ _ (then_reach Library _ _ _ _))].
    + rewrite (reach_trace _ _ (resolveThenable_reach Library _ _ _)).
      apply (reach_trace _ _ (reject_reach Library _ _ _)).
Qed.

Lemma run_callbacks_trace value cbs s :
  trace (foldl (fun s cb => promiseCallback user cb value s) s cbs)
  = trace s ++ handler_calls cbs value.
Proof.
  revert s. induction cbs as [|cb rest IH]; intros s; cbn [foldl].
  - by rewrite app_nil_r.
  - rewrite IH, promiseCallback_trace. unfold handler_calls. cbn [flat_map].
    by rewrite !app_nil_r, app_assoc.
Qed.

Lemma run_task_trace t s :
  trace (run_task user t s) = trace s ++ handler_calls (task_callbacks t) (task_value t).
Proof. apply run_callbacks_trace. Qed.

End Dispatch.

Lemma registered_snoc base action hs h :
  registered base action (hs ++ [h]) =
  registered base action hs ++
    [makeCallback (base + length hs)
       (match action with ActResolve => h.1 | ActReject => h.2 end) action].
Proof.
  unfold registered. rewrite imap_app. cbn. by rewrite Nat.add_0_r.
Qed.

(** Registrations on a pending promise pile up in its queues, in order. *)
Lemma register_pending this o hs s :
  heap s !! this = Some o -> _status o = PENDING ->
  length (heap (register this hs s)) = length (heap s) + length hs ∧
  heap (register this hs s) !! this = Some
    {| _status := PENDING; _value := _value o;
       _doneCallbacks := _doneCallbacks o ++ registered (length (heap s)) ActResolve hs;
       _failCallbacks := _failCallbacks o ++ registered (length (heap s)) ActReject hs |} ∧
  timers (register this hs s) = timers s.
Proof.
  intros Hp Hst. induction hs as [|h hs IH] using rev_ind.
  - cbn. rewrite !app_nil_r, Nat.add_0_r.
    split; [done|]. split; [|done]. rewrite Hp. destruct o. cbn in *. by subst.
  - destruct IH as (Hlen & Hthis & Htim).
    unfold register in *. rewrite foldl_app. cbn [foldl].
    revert Hlen Hthis Htim. generalize (foldl (fun s h => (then_ this h.1 h.2 s).1) s hs).
    intros s1 Hlen Hthis Htim.
    rewrite (then_pending _ _ _ _ _ Hthis eq_refl).
    unfold with_heap. cbn [heap timers _value _doneCallbacks _failCallbacks].
    rewrite length_insert, !length_app, Hlen. cbn [length].
    split; [lia|]. split; [|done].
    rewrite list_lookup_insert_eq;
      [|rewrite length_app; apply lookup_lt_Some in Hthis; lia].
    by rewrite !registered_snoc, !app_assoc.
Qed.

Lemma handler_calls_app cbs1 cbs2 v :
  handler_calls (cbs1 ++ cbs2) v = handler_calls cbs1 v ++ handler_calls cbs2 v.
Proof. apply flat_map_app. Qed.

Lemma handler_calls_registered base action hs v :
  handler_calls (registered base action hs) v = user_handlers action hs v.
Proof.
  revert base. induction hs as [|h hs IH]; intros base; [done|].
  unfold registered in *. cbn [imap]. unfold handler_calls, user_handlers in *.
  cbn [flat_map cb_callback]. f_equal.
  rewrite <- (IH (S base)). f_equal. apply imap_ext. intros i x _. cbn. f_equal. lia.
Qed.

Lemma then_new_promise this o onResolve onReject s :
  heap s !! this = Some o ->
  heap s !! (then_ this onResolve onReject s).2 = None ∧
  heap (then_ this onResolve onReject s).1 !! (then_ this onResolve onReject s).2
    = Some fresh_promise.
Proof.
  intros Hp. rewrite then_promise. split; [by apply lookup_ge_None|].
  assert (this ≠ length (heap s)) as Hne by (apply lookup_lt_Some in Hp; lia).
  assert ((heap s ++ [fresh_promise]) !! length (heap s) = Some fresh_promise) as Hnew.
  { rewrite lookup_app_r; [|done]. by rewrite Nat.sub_diag. }
  destruct (decide (_status o = PENDING)) as [Hst|Hst].
  - rewrite (then_pending _ _ _ _ _ Hp Hst). cbn. by rewrite list_lookup_insert_ne.
  - rewrite (then_settled _ _ _ _ _ Hp Hst). cbn. by rewrite list_lookup_insert_ne.
Qed.

Lemma steps_cons user e es s :
  steps user (e :: es) s = steps user es (step user e s).
Proof. done. Qed.

Lemma ticks_idle user n s : timers s = [] -> steps user (replicate n ETick) s = s.
Proof.
  intros Ht. induction n as [|n IH]; [done|].
  cbn [replicate steps foldl step]. unfold tick at 1. rewrite Ht. exact IH.
Qed.

Lemma late_tasks_snoc base action hs h v :
  late_tasks base action (hs ++ [h]) v =
  late_tasks base action hs v ++
    [{| task_callbacks :=
          [makeCallback (base + length hs)
             (match action with ActResolve => h.1 | ActReject => h.2 end) action];
        task_value := v |}].
Proof. unfold late_tasks. rewrite imap_app. cbn. by rewrite Nat.add_0_r. Qed.

(** Registrations on a promise that is settled and has empty queues: each
    one schedules a task of its own, and the queues are empty again. *)
Lemma register_settled this o hs s :
  heap s !! this = Some o -> _status o ≠ PENDING ->
  _doneCallbacks o = [] -> _failCallbacks o = [] ->
  length (heap (register this hs s)) = length (heap s) + length hs ∧
  heap (register this hs s) !! this = Some o ∧
  timers (register this hs s) =
    timers s ++
    late_tasks (length (heap s))
      (match _status o with FULLFILLED => ActResolve | _ => ActReject end) hs (_value o).
Proof.
  intros Hp Hne Hdone Hfail. induction hs as [|h hs IH] using rev_ind.
  - cbn. by rewrite app_nil_r, Nat.add_0_r.
  - destruct IH as (Hlen & Hthis & Htim).
    unfold register in *. rewrite foldl_app. cbn [foldl].
    revert Hlen Hthis Htim. generalize (foldl (fun s h => (then_ this h.1 h.2 s).1) s hs).
    intros s1 Hlen Hthis Htim.
    rewrite (then_settled _ _ _ _ _ Hthis Hne).
    unfold with_heap, with_timers. cbn [heap timers].
    rewrite length_insert, !length_app, Hlen. cbn [length].
    split; [lia|]. split.
    + rewrite list_lookup_insert_eq;
        [|rewrite length_app; apply lookup_lt_Some in Hthis; lia].
      destruct o. cbn in *. by subst.
    + rewrite Htim, late_tasks_snoc, Hdone, Hfail, <- app_assoc. cbn [app].
      by destruct (_status o).
Qed.

Lemma late_tasks_calls base action hs v :
  task_calls (late_tasks base action hs v) = user_handlers action hs v.
Proof.
  revert base. induction hs as [|h hs IH]; intros base; [done|].
  unfold late_tasks, task_calls in *. cbn [imap flat_map task_callbacks task_value].
  unfold user_handlers in *. cbn [flat_map]. unfold handler_calls at 1.
  cbn [flat_map cb_callback]. rewrite app_nil_r. f_equal.
  rewrite <- (IH (S base)). f_equal. apply imap_ext. intros i x _. cbn.
  do 3 f_equal. lia.
Qed.

Lemma register_reach who this hs s : reach who s (register this hs s).
Proof.
  revert s. induction hs as [|h hs IH]; intros s; [done|].
  unfold register in *. cbn [foldl]. etrans; [apply then_reach | apply IH].
Qed.

(** Timers fire in the order in which they were set: the first ticks run
    the tasks at the head of the queue, each calling the handlers of its
    list. *)
Lemma ticks_fifo user ts rest s :
  timers s = ts ++ rest ->
  trace (steps user (replicate (length ts) ETick) s) = trace s ++ task_calls ts ∧
  exists new, timers (steps user (replicate (length ts) ETick) s) = rest ++ new.
Proof.
  revert rest s. induction ts as [|t ts IH]; intros rest s Ht.
  - cbn. rewrite app_nil_r. split; [done|]. exists []. by rewrite app_nil_r.
  - cbn [length replicate]. rewrite steps_cons. cbn [step].
    assert (tick user s = run_task user t (with_timers (ts ++ rest) s)) as Htick
      by (unfold tick; by rewrite Ht).
    destruct (reach_timers TaskBody _ _ ltac:(done)
                (run_task_reach user t (with_timers (ts ++ rest) s))) as [new Hnew].
    rewrite <- Htick in Hnew. cbn [timers with_timers] in Hnew.
    rewrite <- app_assoc in Hnew.
    destruct (IH (rest ++ new) (tick user s) Hnew) as [Htrace [new' Htimers]].
    split.
    + rewrite Htrace, Htick, run_task_trace. unfold task_calls. cbn [flat_map trace with_timers].
      by rewrite app_assoc.
    + exists (new ++ new'). by rewrite Htimers, app_assoc.
Qed.

Lemma user_handlers_app action hs1 hs2 v :
  user_handlers action (hs1 ++ hs2) v
  = user_handlers action hs1 v ++ user_handlers action hs2 v.
Proof. apply flat_map_app. Qed.

(** C7. [then] returns a new pending promise at once; neither [then], nor
    [resolve], nor [reject], nor any other call into the library enters a
    user handler.  Handlers are entered by the tasks handed to
    [setTimeout], each of which calls the callbacks of its list from first
    to last, and timers fire in the order in which they were set.  [then]
    on a settled promise schedules a task behind the ones already waiting.
    Hence, for handlers registered on one promise, some before it is
    settled and some after, the timer ticks enter them in the order of
    registration. *)
Theorem handlers_fire_later_in_registration_order (user : nat -> UserFn) :
  (forall s this o a b, heap s !! this = Some o ->
     let r := then_ this a b s in
     heap s !! r.2 = None ∧ heap r.1 !! r.2 = Some fresh_promise ∧
     trace r.1 = trace s) ∧
  (forall s p v, trace (resolve p v s) = trace s ∧ trace (reject p v s) = trace s) ∧
  (forall s c, trace (exec_cmd user c s).1 = trace s) ∧
  (forall s t, trace (run_task user t s)
               = trace s ++ handler_calls (task_callbacks t) (task_value t)) ∧
  (forall s this o a b, heap s !! this = Some o -> _status o ≠ PENDING ->
     let r := then_ this a b s in
     timers r.1 = timers s ++
       [{| task_callbacks :=
             match _status o with
             | FULLFILLED => _doneCallbacks o ++ [makeCallback r.2 a ActResolve]
             | _ => _failCallbacks o ++ [makeCallback r.2 b ActReject]
             end;
           task_value := _value o |}]) ∧
  (forall s this o hs1 hs2 v, heap s !! this = Some o -> _status o = PENDING ->
     let base := length (heap s) in
     let done_tasks :=
       {| task_callbacks := _doneCallbacks o ++ registered base ActResolve hs1;
          task_value := v |} :: late_tasks (base + length hs1) ActResolve hs2 v in
     let fail_tasks :=
       {| task_callbacks := _failCallbacks o ++ registered base ActReject hs1;
          task_value := v |} :: late_tasks (base + length hs1) ActReject hs2 v in
     let s_done := register this hs2 (resolve this v (register this hs1 s)) in
     let s_fail := register this hs2 (reject this v (register this hs1 s)) in
     timers s_done = timers s ++ done_tasks ∧
     timers s_fail = timers s ++ fail_tasks ∧
     trace (steps user (replicate (length (timers s ++ done_tasks)) ETick) s_done)
       = trace s ++ task_calls (timers s) ++ handler_calls (_doneCallbacks o) v
           ++ user_handlers ActResolve (hs1 ++ hs2) v ∧
     trace (steps user (replicate (length (timers s ++ fail_tasks)) ETick) s_fail)
       = trace s ++ task_calls (timers s) ++ handler_calls (_failCallbacks o) v
           ++ user_handlers ActReject (hs1 ++ hs2) v) ∧
  (forall s ts rest, timers s = ts ++ rest ->
     trace (steps user (replicate (length ts) ETick) s) = trace s ++ task_calls ts).
Proof.
  split; [|split; [|split; [|split; [|split; [|split]]]]].
  - intros s this o a b Hp r. subst r.
    destruct (then_new_promise this o a b s Hp) as [H1 H2].
    split; [done|]. split; [done|]. apply (reach_trace _ _ (then_reach Library _ _ _ _)).
  - intros s p v. split.
    + apply (reach_trace _ _ (resolve_reach Library _ _ _)).
    + apply (reach_trace _ _ (reject_reach Library _ _ _)).
  - intros s c. apply (reach_trace _ _ (exec_cmd_reach user Library _ _)).
  - intros s t. apply run_task_trace.
  - intros s this o a b Hp Hne r. subst r.
    rewrite (then_settled _ _ _ _ _ Hp Hne), then_promise. done.
  - intros s this o hs1 hs2 v Hp Hst base done_tasks fail_tasks s_done s_fail.
    destruct (register_pending this o hs1 s Hp Hst) as (Hlen & Hthis & Htim).
    fold base in Hlen, Hthis.
    assert (timers s_done = timers s ++ done_tasks) as Hdone.
    { subst s_done. rewrite (resolve_pending _ _ _ _ Hthis eq_refl).
      match goal with |- timers (register _ _ ?s1) = _ => set (s1' := s1) end.
      destruct (register_settled this
                  {| _status := FULLFILLED; _value := v;
                     _doneCallbacks := []; _failCallbacks := [] |} hs2 s1')
        as (_ & _ & ->); try done.
      { subst s1'. cbn. apply list_lookup_insert_eq. by eapply lookup_lt_Some. }
      subst s1' done_tasks. cbn [heap timers with_heap with_timers _status _value
        _doneCallbacks].
      by rewrite length_insert, Hlen, Htim, <- app_assoc. }
    assert (timers s_fail = timers s ++ fail_tasks) as Hfail.
    { subst s_fail. rewrite (reject_pending _ _ _ _ Hthis eq_refl).
      match goal with |- timers (register _ _ ?s1) = _ => set (s1' := s1) end.
      destruct (register_settled this
                  {| _status := REJECTED; _value := v;
                     _doneCallbacks := []; _failCallbacks := [] |} hs2 s1')
        as (_ & _ & ->); try done.
      { subst s1'. cbn. apply list_lookup_insert_eq. by eapply lookup_lt_Some. }
      subst s1' fail_tasks. cbn [heap timers with_heap with_timers _status _value
        _failCallbacks].
      by rewrite length_insert, Hlen, Htim, <- app_assoc. }
    split; [done|]. split; [done|]. split.
    + assert (trace s_done = trace s) as Htr.
      { apply reach_trace. etrans; [apply register_reach|].
        etrans; [apply resolve_reach | apply register_reach]. }
      rewrite <- (app_nil_r (timers s ++ done_tasks)) in Hdone.
      destruct (ticks_fifo user _ _ _ Hdone) as [-> _]. rewrite Htr.
      unfold task_calls at 1. rewrite flat_map_app. fold (task_calls (timers s)).
      subst done_tasks. cbn [flat_map task_callbacks task_value].
      fold (task_calls (late_tasks (base + length hs1) ActResolve hs2 v)).
      by rewrite late_tasks_calls, handler_calls_app, handler_calls_registered,
        user_handlers_app, <- !app_assoc.
    + assert (trace s_fail = trace s) as Htr.
      { apply reach_trace. etrans; [apply register_reach|].
        etrans; [apply reject_reach | apply register_reach]. }
      rewrite <- (app_nil_r (timers s ++ fail_tasks)) in Hfail.
      destruct (ticks_fifo user _ _ _ Hfail) as [-> _]. rewrite Htr.
      unfold task_calls at 1. rewrite flat_map_app. fold (task_calls (timers s)).
      subst fail_tasks. cbn [flat_map task_callbacks task_value].
      fold (task_calls (late_tasks (base + length hs1) ActReject hs2 v)).
      by rewrite late_tasks_calls, handler_calls_app, handler_calls_registered,
        user_handlers_app, <- !app_assoc.
  - intros s ts rest Ht. by destruct (ticks_fifo user ts rest s Ht).
Qed.

Lemma handlers_fire_later_in_registration_order_witness :
  let hs1 := [(VUserFn 5, VUndefined)] in
  let hs2 := [(VUserFn 6, VUndefined)] in
  let s := register 1 hs2 (resolve 1 (VNum 9) (register 1 hs1 two_promises)) in
  heap two_promises !! 1 = Some fresh_promise ∧
  trace s = [] ∧
  trace (steps identity_user [ETick; ETick; ETick] s) = [(5, VNum 9); (6, VNum 9)].
Proof.
  intros hs1 hs2 s.
  destruct (handlers_fire_later_in_registration_order identity_user)
    as (_ & _ & _ & _ & _ & H & _).
  destruct (H two_promises 1 fresh_promise hs1 hs2 (VNum 9) eq_refl eq_refl)
    as (_ & _ & Hrun & _).
  split; [reflexivity|]. split; [reflexivity|]. exact Hrun.
Defined.

(** ** Exceptions thrown by handlers *)

(** C6. When the handler of a callback made by [then] throws [e],
    [promiseCallback] leaves the state that [reject(promise, e)] produces:
    the statements after the [catch] change nothing.  The downstream
    promise, pending when the handler throws, is rejected with [e], and
    stays so through every later library call and timer task. *)
Theorem handler_exception_rejects_downstream
    (user : nat -> UserFn) (cb : Callback) (value e : Value) (s s1 : State) :
  is_function (cb_callback cb) = true ->
  call_function user (cb_callback cb) value s = (s1, Throw e) ->
  let s2 := promiseCallback user cb value s in
  s2 = reject (cb_promise cb) e s1 ∧
  (status_of (cb_promise cb) s1 = Some PENDING ->
   status_of (cb_promise cb) s2 = Some REJECTED ∧
   value_of (cb_promise cb) s2 = Some e ∧
   forall es,
     status_of (cb_promise cb) (steps user es s2) = Some REJECTED ∧
     value_of (cb_promise cb) (steps user es s2) = Some e).
Proof.
  intros Hfn Hcall s2.
  assert (s2 = reject (cb_promise cb) e s1) as ->.
  { subst s2. unfold promiseCallback. rewrite Hfn, Hcall. cbn [resolveThenable].
    unfold resolve, reject at 1 2.
    destruct (status_of (cb_promise cb) s1) as [[]|] eqn:Hst; rewrite ?Hst; try done.
    unfold status_of in Hst.
    destruct (heap s1 !! cb_promise cb) as [o|] eqn:Hp; [|done].
    assert (_status o = PENDING) as Ho by (cbn in Hst; congruence).
    fold (reject (cb_promise cb) e s1).
    pose proof (reject_status _ _ e _ Hp Ho) as [Hs _].
    unfold reject in Hs. unfold status_of in Hs at 2. rewrite Hp in Hs. cbn in Hs.
    rewrite Ho in Hs. by rewrite Hs. }
  split; [done|]. intros Hpending.
  unfold status_of in Hpending.
  destruct (heap s1 !! cb_promise cb) as [o|] eqn:Hp; [|done].
  cbn in Hpending. assert (_status o = PENDING) as Hst by congruence.
  destruct (reject_status _ _ e _ Hp Hst) as [Hs Hv].
  split; [done|]. split; [done|]. intros es.
  by eapply frozen_settled; [eapply reach_frozen, steps_reach| | |].
Qed.

Lemma handler_exception_rejects_downstream_witness :
  let cb := makeCallback 1 (VUserFn 0) ActResolve in
  status_of 1 (log_call 0 (VNum 7) two_promises) = Some PENDING ∧
  status_of 1 (promiseCallback throwing_user cb (VNum 7) two_promises) = Some REJECTED ∧
  value_of 1 (promiseCallback throwing_user cb (VNum 7) two_promises) = Some (VNum 7).
Proof.
  intros cb. split; [reflexivity|].
  destruct (handler_exception_rejects_downstream throwing_user cb (VNum 7) (VNum 7)
              two_promises (log_call 0 (VNum 7) two_promises)
              eq_refl eq_refl) as [_ H].
  destruct (H eq_refl) as (Hs & Hv & _). by split.
Defined.

(** ** The latch of thenable assimilation *)

Lemma is_invoked_fire l s :
  l < length (latches s) -> is_invoked l (fire_latch l s) = true.
Proof. intros Hl. unfold is_invoked, fire_latch. cbn. by rewrite list_lookup_insert_eq. Qed.

Lemma call_then_invoked body l x p s :
  is_invoked l s = true -> call_then body l x p s = (s, body_end body).
Proof.
  intros Hl. induction body as [| |y k IH|k IH|e k IH]; cbn [call_then body_end];
    try done; by rewrite Hl.
Qed.

Lemma capability_invoked c l x p arg s :
  c = FResolvePromise l x p ∨ c = FRejectPromise l p ->
  is_invoked l s = true -> call_closure c arg s = (s, Normal VUndefined).
Proof. intros [-> | ->] Hl; cbn [call_closure]; by rewrite Hl. Qed.

Lemma capability_fires c l x p arg s :
  c = FResolvePromise l x p ∨ c = FRejectPromise l p ->
  l < length (latches s) -> is_invoked l (call_closure c arg s).1 = true.
Proof.
  intros Hc Hl. destruct (is_invoked l s) eqn:Hinv.
  - by rewrite (capability_invoked _ _ _ _ _ _ Hc Hinv).
  - apply is_invoked_fire in Hl.
    destruct Hc as [-> | ->]; cbn [call_closure]; rewrite Hinv.
    + destruct (same_object arg x); cbn [fst]; [done|].
      by apply (reach_latched _ _ _ (resolveThenable_reach Library _ _ _)).
    + cbn [fst]. by apply (reach_latched _ _ _ (reject_reach Library _ _ _)).
Qed.

(** C8. The two functions handed to a foreign [then] read and set one
    latch.  [resolveThenable] allocates it unfired and builds both
    functions over it; a call made inside [then] is a call of one of them.
    The first call of either fires the latch; from then on, whatever
    library calls and timer tasks come in between, a call of either one,
    with any argument, returns without changing the state, and so does the
    rest of any [then] body.  The target promise, once it has left
    [PENDING], keeps its status and value. *)
Theorem capabilities_share_one_latch
    (user : nat -> UserFn) (l : nat) (x : Value) (p : nat) (c1 c2 : Closure) :
  (c1 = FResolvePromise l x p ∨ c1 = FRejectPromise l p) ->
  (c2 = FResolvePromise l x p ∨ c2 = FRejectPromise l p) ->
  (forall id body q s,
     let l0 := length (latches s) in
     let s0 := new_latch s in
     let x0 := VThenable id (ThenFn body) in
     is_invoked l0 s0 = false ∧ l0 < length (latches s0) ∧
     resolveThenable x0 p s =
       match call_then body l0 x0 p s0 with
       | (s', None) => s'
       | (s', Some e) => if is_invoked l0 s' then s' else reject p e s'
       end ∧
     resolveThenable (VPromise q) p s =
       (then_ q (VClosure (FResolvePromise l0 (VPromise q) p))
                (VClosure (FRejectPromise l0 p)) s0).1) ∧
  (forall y e k s,
     call_then (TResolve y k) l x p s =
       match call_closure (FResolvePromise l x p) y s with
       | (s', Normal _) => call_then k l x p s'
       | (s', Throw e') => (s', Some e')
       end ∧
     call_then (TReject e k) l x p s =
       call_then k l x p (call_closure (FRejectPromise l p) e s).1) ∧
  (forall arg1 s, l < length (latches s) ->
     let s1 := (call_closure c1 arg1 s).1 in
     is_invoked l s1 = true ∧
     forall es arg2,
       let s2 := steps user es s1 in
       call_closure c2 arg2 s2 = (s2, Normal VUndefined) ∧
       forall body, call_then body l x p s2 = (s2, body_end body)) ∧
  (forall s o es, heap s !! p = Some o -> _status o ≠ PENDING ->
     exists o', heap (steps user es s) !! p = Some o' ∧
       _status o' = _status o ∧ _value o' = _value o).
Proof.
  intros Hc1 Hc2. split; [|split; [|split]].
  - intros id body q s l0 s0 x0. split; [|split; [|split]]; try done.
    + unfold is_invoked, l0, s0, new_latch. cbn.
      rewrite lookup_app_r; [|done]. by rewrite Nat.sub_diag.
    + unfold l0, s0, new_latch. cbn. rewrite length_app. cbn. lia.
  - intros y e k s. split; cbn [call_then call_closure].
    + destruct (is_invoked l s); [done|]. by destruct (same_object y x).
    + by destruct (is_invoked l s).
  - intros arg1 s Hl s1.
    pose proof (capability_fires _ _ _ _ arg1 _ Hc1 Hl) as Hfired. fold s1 in Hfired.
    split; [done|]. intros es arg2 s2.
    assert (is_invoked l s2 = true) as Hlater
      by apply (reach_latched _ _ _ (steps_reach user es s1)), Hfired.
    split; [by eapply capability_invoked | intros body; by apply call_then_invoked].
  - intros s o es Hp Hne.
    destruct (reach_frozen _ _ _ (steps_reach user es s) p o Hp) as (o' & Ho' & Hk).
    exists o'. split; [done|]. by apply Hk.
Qed.

Lemma capabilities_share_one_latch_witness :
  let x := VThenable 7 (ThenFn TReturn) in
  let s := new_latch two_promises in
  let s1 := (call_closure (FResolvePromise 0 x 1) (VNum 5) s).1 in
  0 < length (latches s) ∧
  value_of 1 s1 = Some (VNum 5) ∧
  call_closure (FRejectPromise 0 1) (VNum 6) (steps identity_user [ETick] s1)
    = (steps identity_user [ETick] s1, Normal VUndefined).
Proof.
  intros x s s1.
  destruct (capabilities_share_one_latch identity_user 0 x 1
              (FResolvePromise 0 x 1) (FRejectPromise 0 1)
              (or_introl eq_refl) (or_intror eq_refl)) as (_ & _ & H & _).
  assert (0 < length (latches s)) as Hl by (cbn; lia).
  destruct (H (VNum 5) s Hl) as [_ Hlater].
  split; [exact Hl|]. split; [reflexivity|].
  exact (proj1 (Hlater [ETick] (VNum 6))).
Defined.

(** ** The constructor *)

Lemma call_resolver_calls body promise s :
  call_resolver body promise s
  = (foldl (apply_call promise) s (resolver_calls body), resolver_end body).
Proof.
  revert s. induction body as [| |data k IH|reason k IH]; intros s;
    cbn [call_resolver resolver_calls resolver_end foldl]; try done; by rewrite IH.
Qed.

Lemma apply_calls_reach who promise calls s :
  reach who s (foldl (apply_call promise) s calls).
Proof.
  revert s. induction calls as [|[[] v] rest IH]; intros s; cbn [foldl]; [done| |].
  - etrans; [apply (resolve_reach who promise v s) | apply IH].
  - etrans; [apply (reject_reach who promise v s) | apply IH].
Qed.

Lemma alloc_promise_lookup s :
  heap (alloc_promise s) !! length (heap s) = Some fresh_promise.
Proof. cbn. rewrite lookup_app_r; [|done]. by rewrite Nat.sub_diag. Qed.

(** C10. [new Promise(resolver)] runs the resolver before it returns: the
    state it leaves is the one produced by the resolver's calls to its two
    functions, which settle the new promise.  When the resolver throws, the
    constructor throws the same value; the exception has no effect on the
    new promise, whose status is decided by the first call the resolver
    made and is still [PENDING] when it made none. *)
Theorem constructor_runs_resolver_synchronously (body : ResolverBody) (s : State) :
  let promise := length (heap s) in
  let r := Promise true (Some body) s in
  heap (alloc_promise s) !! promise = Some fresh_promise ∧
  r.1 = foldl (apply_call promise) (alloc_promise s) (resolver_calls body) ∧
  r.2 = match resolver_end body with
        | Some e => Throw e
        | None => Normal (VPromise promise)
        end ∧
  match resolver_calls body with
  | [] => status_of promise r.1 = Some PENDING
  | (ActResolve, v) :: _ =>
      status_of promise r.1 = Some FULLFILLED ∧ value_of promise r.1 = Some v
  | (ActReject, v) :: _ =>
      status_of promise r.1 = Some REJECTED ∧ value_of promise r.1 = Some v
  end.
Proof.
  intros promise r. pose proof (alloc_promise_lookup s) as Hnew. fold promise in Hnew.
  assert (r = (foldl (apply_call promise) (alloc_promise s) (resolver_calls body),
               match resolver_end body with
               | Some e => Throw e
               | None => Normal (VPromise promise)
               end)) as ->.
  { subst r. unfold Promise. cbn [negb]. fold promise.
    rewrite call_resolver_calls. by destruct (resolver_end body). }
  split; [done|]. split; [done|]. split; [done|]. cbn [fst].
  destruct (resolver_calls body) as [|[[] v] rest]; cbn [foldl].
  - unfold status_of. by rewrite Hnew.
  - destruct (resolve_status _ _ v _ Hnew eq_refl) as [Hs Hv].
    by eapply frozen_settled; [eapply reach_frozen, (apply_calls_reach Library)| | |].
  - destruct (reject_status _ _ v _ Hnew eq_refl) as [Hs Hv].
    by eapply frozen_settled; [eapply reach_frozen, (apply_calls_reach Library)| | |].
Qed.

(** The two checks at the head of the constructor. *)
Lemma constructor_misuse resolver s :
  Promise false resolver s = (s, Throw (VTypeError "TypeError: undefined is not a promise")) ∧
  Promise true None s
    = (s, Throw (VTypeError "TypeError: Promise resolver undefined is not a function")).
Proof. done. Qed.

(** [new Promise(empty)] is the constructor on a resolver that does
    nothing. *)
Lemma new_Promise_empty_constructor s :
  Promise true (Some RReturn) s
  = ((new_Promise_empty s).1, Normal (VPromise (new_Promise_empty s).2)).
Proof. done. Qed.

(** A resolver that only throws: the exception leaves the constructor, and
    the promise it was building is pending. *)
Example constructor_throwing_resolver :
  Promise true (Some (RThrow (VStr "boom"))) empty_state
  = (alloc_promise empty_state, Throw (VStr "boom")) ∧
  status_of 0 (alloc_promise empty_state) = Some PENDING.
Proof. done. Qed.

(** ** Static operations *)

(** C1. On an array-like input, [Promise.race] and [Promise.all] run to
    their closing brace without a [return]: the value of the call is
    [undefined], and the promise they built stays out of the caller's
    reach. *)
Theorem race_and_all_return_undefined
    (user : nat -> UserFn) (iterable : Value) (xs : list Value) (s : State) :
  array_like user iterable = Some xs ->
  (Promise_race user iterable s).2 = Normal VUndefined ∧
  (Promise_all user iterable s).2 = Normal VUndefined ∧
  heap (Promise_race user iterable s).1 !! length (heap s) ≠ None ∧
  heap (Promise_all user iterable s).1 !! length (heap s) ≠ None.
Proof.
  intros Hxs. unfold Promise_race, Promise_all. rewrite Hxs. cbn [snd fst new_Promise_empty].
  split; [done|]. split; [done|].
  assert (forall s', frozen (alloc_promise s) s' -> heap s' !! length (heap s) ≠ None) as Hkeep.
  { intros s' Hf. destruct (Hf _ _ (alloc_promise_lookup s)) as (o' & Ho' & _). by rewrite Ho'. }
  split; apply Hkeep.
  - eapply reach_frozen. etrans; [apply rtc_once, mut_new_race | apply (race_loop_reach Library)].
  - eapply reach_frozen. etrans; [apply rtc_once, mut_new_all | apply (all_loop_reach Library)].
Qed.

Lemma race_and_all_return_undefined_witness :
  array_like identity_user (VArray [VNum 1; VNum 2]) = Some [VNum 1; VNum 2] ∧
  (Promise_race identity_user (VArray [VNum 1; VNum 2]) empty_state).2 = Normal VUndefined ∧
  (Promise_all identity_user (VArray [VNum 1; VNum 2]) empty_state).2 = Normal VUndefined.
Proof.
  split; [reflexivity|].
  destruct (race_and_all_return_undefined identity_user (VArray [VNum 1; VNum 2])
              [VNum 1; VNum 2] empty_state eq_refl) as (Hrace & Hall & _).
  by split.
Defined.

Lemma Promise_resolve_status value s :
  status_of (Promise_resolve value s).2 (Promise_resolve value s).1 = Some FULLFILLED ∧
  value_of (Promise_resolve value s).2 (Promise_resolve value s).1 = Some value.
Proof.
  unfold Promise_resolve, new_Promise_empty. cbn [fst snd].
  by eapply resolve_status; [apply alloc_promise_lookup|].
Qed.

(** C2, as the code has it.  [Promise.resolve(v)] returns a new promise
    that is fulfilled with [v] itself when the call returns, whatever [v]
    is, a promise or a thenable included, and no later library call or
    timer task changes that. *)
Theorem Promise_resolve_fulfills_with_its_argument
    (user : nat -> UserFn) (value : Value) (s : State) :
  let r := Promise_resolve value s in
  r.2 = length (heap s) ∧ heap s !! r.2 = None ∧
  forall es,
    status_of r.2 (steps user es r.1) = Some FULLFILLED ∧
    value_of r.2 (steps user es r.1) = Some value.
Proof.
  intros r. split; [done|]. split; [by apply lookup_ge_None|]. intros es.
  destruct (Promise_resolve_status value s) as [Hs Hv].
  by eapply frozen_settled; [eapply reach_frozen, steps_reach| | |].
Qed.

(** C2 fails as stated: [Promise.resolve] of a thenable that hands 1 to its
    first argument, and of a promise fulfilled with 1, are fulfilled with
    the thenable and with the promise, not with 1, and remain so. *)
Lemma Promise_resolve_does_not_assimilate :
  let thenable := VThenable 7 (ThenFn (TResolve (VNum 1) TReturn)) in
  let r := Promise_resolve thenable empty_state in
  let inner := Promise_resolve (VNum 1) empty_state in
  let outer := Promise_resolve (VPromise inner.2) inner.1 in
  (forall es,
     status_of r.2 (steps identity_user es r.1) = Some FULLFILLED ∧
     value_of r.2 (steps identity_user es r.1) = Some thenable ∧
     value_of r.2 (steps identity_user es r.1) ≠ Some (VNum 1)) ∧
  (forall es,
     value_of inner.2 (steps identity_user es outer.1) = Some (VNum 1) ∧
     status_of outer.2 (steps identity_user es outer.1) = Some FULLFILLED ∧
     value_of outer.2 (steps identity_user es outer.1) = Some (VPromise inner.2) ∧
     value_of outer.2 (steps identity_user es outer.1) ≠ Some (VNum 1)).
Proof.
  intros thenable r inner outer. split; intros es.
  - assert (status_of r.2 (steps identity_user es r.1) = Some FULLFILLED ∧
            value_of r.2 (steps identity_user es r.1) = Some thenable) as [Hs Hv]
      by by eapply frozen_settled; [eapply reach_frozen, steps_reach| | |].
    split; [done|]. split; [done|]. by rewrite Hv.
  - assert (status_of inner.2 (steps identity_user es outer.1) = Some FULLFILLED ∧
            value_of inner.2 (steps identity_user es outer.1) = Some (VNum 1)) as [_ Hi]
      by by eapply frozen_settled; [eapply reach_frozen, steps_reach| | |].
    assert (status_of outer.2 (steps identity_user es outer.1) = Some FULLFILLED ∧
            value_of outer.2 (steps identity_user es outer.1) = Some (VPromise inner.2))
      as [Hs Hv]
      by by eapply frozen_settled; [eapply reach_frozen, steps_reach| | |].
    split; [done|]. split; [done|]. split; [done|]. by rewrite Hv.
Qed.

(** ** A thenable that resolves to itself *)

(** C3. What the code does when the first function handed to a foreign
    [then] is called, for the first time, with the thenable itself: the
    latch fires and a [TypeError] is thrown at the caller, the promise
    objects being left as they are.  When the call is made inside [then],
    the [catch] around it finds the latch fired and drops the exception, so
    that [resolveThenable] ends without having touched the target promise.
    In [Promise.resolve(1).then(f0)], where [f0] returns such a thenable,
    the promise returned by [then] is still pending when no timer is left
    to fire. *)
Theorem self_resolving_thenable_is_not_rejected
    (l : nat) (x y : Value) (p : nat) (s : State) :
  is_invoked l s = false -> same_object y x = true ->
  (call_closure (FResolvePromise l x p) y s
     = (fire_latch l s, Throw thenable_cycle_error) ∧
   heap (fire_latch l s) = heap s ∧ timers (fire_latch l s) = timers s) ∧
  (forall id k q s0,
     let s' := resolveThenable (VThenable id (ThenFn (TResolveSelf k))) q s0 in
     s' = fire_latch (length (latches s0)) (new_latch s0) ∧
     heap s' = heap s0 ∧ timers s' = timers s0) ∧
  (trace self_thenable_run = [(0, VNum 1)] ∧
   status_of 1 self_thenable_run = Some PENDING ∧
   timers self_thenable_run = [] ∧
   forall n, status_of 1 (steps self_user (replicate n ETick) self_thenable_run)
             = Some PENDING).
Proof.
  intros Hl Hsame. split; [|split].
  - cbn [call_closure]. by rewrite Hl, Hsame.
  - intros id k q s0 s'.
    assert (s' = fire_latch (length (latches s0)) (new_latch s0)) as ->; [|done].
    subst s'. cbn [resolveThenable call_then].
    assert (is_invoked (length (latches s0)) (new_latch s0) = false) as ->.
    { unfold is_invoked, new_latch. cbn. rewrite lookup_app_r; [|done].
      by rewrite Nat.sub_diag. }
    rewrite is_invoked_fire; [done|]. unfold new_latch. cbn. rewrite length_app. cbn. lia.
  - split; [done|]. split; [done|]. split; [done|].
    intros n. by rewrite ticks_idle.
Qed.

Lemma self_resolving_thenable_is_not_rejected_witness :
  let s := new_latch two_promises in
  is_invoked 0 s = false ∧ same_object self_thenable self_thenable = true ∧
  call_closure (FResolvePromise 0 self_thenable 1) self_thenable s
    = (fire_latch 0 s, Throw thenable_cycle_error) ∧
  status_of 1 (fire_latch 0 s) = Some PENDING.
Proof.
  intros s. split; [reflexivity|]. split; [reflexivity|].
  destruct (self_resolving_thenable_is_not_rejected 0 self_thenable self_thenable 1 s
              eq_refl eq_refl) as [(Hcall & _ & _) _].
  split; [exact Hcall | reflexivity].
Defined.

(** ** Empty inputs *)

(** C4. What the code does on the empty array.  [Promise.all([])] and
    [Promise.race([])] allocate a pending promise and a scope for their
    variables, register nothing and schedule nothing: the completion test
    of [all] sits in the callbacks, none of which exists.  Started from the
    empty state, the promise of either call is pending after any number of
    timer ticks. *)
Theorem all_and_race_of_empty_stay_pending (user : nat -> UserFn) (s : State) :
  let a := (Promise_all user (VArray []) s).1 in
  let r := (Promise_race user (VArray []) s).1 in
  (heap a = heap s ++ [fresh_promise] ∧ timers a = timers s ∧
   alls a = alls s ++ [{| all_promise := length (heap s); all_length := 0;
                          result := []; count := 0 |}]) ∧
  (heap r = heap s ++ [fresh_promise] ∧ timers r = timers s ∧
   races r = races s ++ [{| race_promise := length (heap s); settled := false |}]) ∧
  (forall n,
     status_of 0 (steps user (ECmd (CAll (VArray [])) :: replicate n ETick) empty_state)
       = Some PENDING) ∧
  (forall n,
     status_of 0 (steps user (ECmd (CRace (VArray [])) :: replicate n ETick) empty_state)
       = Some PENDING).
Proof.
  intros a r. split; [done|]. split; [done|].
  split; intros n; rewrite steps_cons; by rewrite ticks_idle.
Qed.

(** ** Runs of the model

    The scenarios of the specification, evaluated. *)

(** [all([1, Promise.resolve(2), 3])] fulfils its promise with [1, 2, 3]. *)
Example all_collects_in_input_order :
  let s := steps identity_user
             (ECmd (CResolve (VNum 2))
              :: ECmd (CAll (VArray [VNum 1; VPromise 0; VNum 3]))
              :: replicate 8 ETick) empty_state in
  status_of 1 s = Some FULLFILLED ∧
  value_of 1 s = Some (VArray [VNum 1; VNum 2; VNum 3]).
Proof. by vm_compute. Qed.

(** [all([resolve(1), reject('x'), resolve(2)])] rejects its promise with
    ['x']. *)
Example all_rejects_on_first_failure :
  let s := steps identity_user
             (ECmd (CResolve (VNum 1)) :: ECmd (CReject (VStr "x"))
              :: ECmd (CResolve (VNum 2))
              :: ECmd (CAll (VArray [VPromise 0; VPromise 1; VPromise 2]))
              :: replicate 8 ETick) empty_state in
  status_of 3 s = Some REJECTED ∧ value_of 3 s = Some (VStr "x").
Proof. by vm_compute. Qed.

(** [race] of two settled promises takes the outcome of the first. *)
Example race_takes_first_registered :
  let s := steps identity_user
             (ECmd (CResolve (VNum 1)) :: ECmd (CReject (VStr "x"))
              :: ECmd (CRace (VArray [VPromise 0; VPromise 1]))
              :: replicate 8 ETick) empty_state in
  status_of 2 s = Some FULLFILLED ∧ value_of 2 s = Some (VNum 1).
Proof. by vm_compute. Qed.

(** A handler that returns a promise: the promise of [then] takes the value
    that promise is later fulfilled with. *)
Example then_follows_returned_promise :
  let s := steps deferring_user
             [ECmd (CResolve (VNum 1)); ECmd (CThen 0 (VUserFn 0) VUndefined);
              ETick; ETick; ECmd (CCall (FResolve 2) (VNum 42)); ETick; ETick]
             empty_state in
  status_of 1 s = Some FULLFILLED ∧ value_of 1 s = Some (VNum 42).
Proof. by vm_compute. Qed.

(** A thenable that calls its first argument twice, then its second, then
    throws: the first call decides. *)
Example thenable_first_call_wins :
  let s := steps insistent_user
             [ECmd (CResolve (VNum 0)); ECmd (CThen 0 (VUserFn 0) VUndefined);
              ETick; ETick; ETick] empty_state in
  status_of 1 s = Some FULLFILLED ∧ value_of 1 s = Some (VNum 1) ∧ timers s = [].
Proof. by vm_compute. Qed.

(** A handler that returns the promise [then] returned: that promise is
    rejected with a [TypeError]. *)
Example then_rejects_own_promise :
  let s := steps circular_user
             [ECmd (CResolve (VNum 0)); ECmd (CThen 0 (VUserFn 0) VUndefined);
              ETick; ETick] empty_state in
  status_of 1 s = Some REJECTED ∧ value_of 1 s = Some same_promise_error.
Proof. by vm_compute. Qed.

(** ** Every function of the library is a sequence of operations *)

Section Ops.

Variable who : Agent.

Lemma call_resolver_ops body p s : ops who s (call_resolver body p s).1.
Proof.
  revert s. induction body as [| |data k IH|reason k IH]; intros s; cbn; try done.
  - etrans; [apply rtc_once, op_resolve | apply IH].
  - etrans; [apply rtc_once, op_reject | apply IH].
Qed.

Lemma Promise_ops is_instance resolver s :
  ops who s (Promise is_instance resolver s).1.
Proof.
  unfold Promise. destruct is_instance; [|done]. destruct resolver as [body|]; [|done].
  cbn. pose proof (call_resolver_ops body (length (heap s)) (alloc_promise s)) as H.
  destruct (call_resolver _ _ _) as [s' [e|]]; cbn in *;
    (etrans; [apply rtc_once, op_alloc | done]).
Qed.

Lemma then_ops this a b s : ops who s (then_ this a b s).1.
Proof. apply rtc_once, op_then. Qed.

Lemma resolve_ops p v s : ops who s (resolve p v s).
Proof. apply rtc_once, op_resolve. Qed.

Lemma reject_ops p v s : ops who s (reject p v s).
Proof. apply rtc_once, op_reject. Qed.

Lemma resolveThenable_call_then_ops :
  (forall x p s, ops who s (resolveThenable x p s)) ∧
  (forall body l x p s, ops who s (call_then body l x p s).1).
Proof.
  assert (forall x p s, ops who s (resolveThenable x p s)) as HV.
  { apply (Value_mut
      (fun x => forall p s, ops who s (resolveThenable x p s))
      (fun m => forall id p s, ops who s (resolveThenable (VThenable id m) p s))
      (fun body => forall l x p s, ops who s (call_then body l x p s).1)
      (fun _ => True)); try done; intros; cbn [resolveThenable call_then fst];
      try apply resolve_ops; try apply reject_ops.
    - etrans; [apply rtc_once, op_new_latch | apply then_ops].
    - pose proof (H (length (latches s)) (VThenable id (ThenFn body)) p (new_latch s)) as Hb.
      destruct (call_then _ _ _ _ _) as [s' [e|]]; cbn in Hb.
      + destruct (is_invoked _ s').
        * etrans; [apply rtc_once, op_new_latch | done].
        * etrans; [apply rtc_once, op_new_latch|].
          etrans; [done | apply reject_ops].
      + etrans; [apply rtc_once, op_new_latch | done].
    - destruct (is_invoked l s); [auto|].
      destruct (same_object y x); cbn; [apply rtc_once, op_fire|].
      etrans; [apply rtc_once, op_fire|]. etrans; [apply H | apply H0].
    - destruct (is_invoked l s); [auto|]. cbn. apply rtc_once, op_fire.
    - destruct (is_invoked l s); [auto|].
      etrans; [apply rtc_once, op_fire|]. etrans; [apply reject_ops | apply H0]. }
  split; [done|].
  induction body as [| |y k IH|k IH|e k IH]; intros l x p s;
    cbn [resolveThenable call_then fst]; try done.
  - destruct (is_invoked l s); [auto|].
    destruct (same_object y x); cbn; [apply rtc_once, op_fire|].
    etrans; [apply rtc_once, op_fire|]. etrans; [apply HV | apply IH].
  - destruct (is_invoked l s); [auto|]. cbn. apply rtc_once, op_fire.
  - destruct (is_invoked l s); [auto|].
    etrans; [apply rtc_once, op_fire|]. etrans; [apply reject_ops | apply IH].
Qed.

Lemma resolveThenable_ops x p s : ops who s (resolveThenable x p s).
Proof. apply resolveThenable_call_then_ops. Qed.

Lemma call_closure_ops c arg s : ops who s (call_closure c arg s).1.
Proof.
  destruct c as [p|p|sc|sc|sc i [] |l x p|l p]; cbn [call_closure].
  - apply resolve_ops.
  - apply reject_ops.
  - destruct (races s !! sc) as [r|]; [|done]. destruct (settled r); [done|].
    etrans; [apply rtc_once, op_settled | apply resolve_ops].
  - destruct (races s !! sc) as [r|]; [|done]. destruct (settled r); [done|].
    etrans; [apply rtc_once, op_settled | apply reject_ops].
  - destruct (alls s !! sc) as [a|]; [|done]. case_decide; cbn [fst].
    + etrans; [apply rtc_once, op_record | apply resolve_ops].
    + apply rtc_once, op_record.
  - destruct (alls s !! sc) as [a|]; [|done]. apply reject_ops.
  - destruct (is_invoked l s); [done|]. destruct (same_object arg x); cbn [fst].
    + apply rtc_once, op_fire.
    + etrans; [apply rtc_once, op_fire | apply resolveThenable_ops].
  - destruct (is_invoked l s); [done|].
    etrans; [apply rtc_once, op_fire | apply reject_ops].
Qed.

Lemma Promise_resolve_ops value s : ops who s (Promise_resolve value s).1.
Proof. etrans; [apply rtc_once, op_alloc | apply resolve_ops]. Qed.

Lemma Promise_reject_ops reason s : ops who s (Promise_reject reason s).1.
Proof. etrans; [apply rtc_once, op_alloc | apply reject_ops]. Qed.

Lemma coerce_ops iterate s : ops who s (coerce iterate s).1.
Proof. destruct iterate; try apply Promise_resolve_ops. done. Qed.

Lemma race_loop_ops scope xs s : ops who s (race_loop scope xs s).
Proof.
  revert s. induction xs as [|iterate rest IH]; intros s; cbn [race_loop]; [done|].
  pose proof (coerce_ops iterate s) as Hc. destruct (coerce iterate s) as [s1 it].
  etrans; [exact Hc|]. etrans; [apply then_ops | apply IH].
Qed.

Lemma all_loop_ops scope i xs s : ops who s (all_loop scope i xs s).
Proof.
  revert i s. induction xs as [|iterate rest IH]; intros i s; cbn [all_loop]; [done|].
  pose proof (coerce_ops iterate s) as Hc. destruct (coerce iterate s) as [s1 it].
  etrans; [exact Hc|]. etrans; [apply then_ops | apply IH].
Qed.

Variable user : nat -> UserFn.

Lemma exec_cmd_ops c s : ops who s (exec_cmd user c s).1.
Proof.
  destruct c; cbn [exec_cmd].
  - apply Promise_ops.
  - pose proof (then_ops this onResolve onReject s). by destruct (then_ _ _ _ _).
  - pose proof (then_ops this onResolve VNull s). unfold done.
    by destruct (then_ _ _ _ _).
  - pose proof (then_ops this VNull onReject s). unfold fail.
    by destruct (then_ _ _ _ _).
  - pose proof (then_ops this VNull onFail s). unfold catch.
    by destruct (then_ _ _ _ _).
  - pose proof (Promise_resolve_ops value s). by destruct (Promise_resolve _ _).
  - pose proof (Promise_reject_ops reason s). by destruct (Promise_reject _ _).
  - unfold Promise_race. destruct (array_like user iterable) as [xs|]; [|done].
    cbn [new_Promise_empty fst]. etrans; [apply rtc_once, op_alloc|].
    etrans; [apply rtc_once, op_new_race | apply race_loop_ops].
  - unfold Promise_all. destruct (array_like user iterable) as [xs|]; [|done].
    cbn [new_Promise_empty fst]. etrans; [apply rtc_once, op_alloc|].
    etrans; [apply rtc_once, op_new_all | apply all_loop_ops].
  - apply rtc_once, op_alloc.
  - apply call_closure_ops.
Qed.

Lemma exec_cmds_ops cs s : ops who s (exec_cmds user cs s).1.
Proof.
  revert s. induction cs as [|c rest IH]; intros s; cbn [exec_cmds]; [done|].
  pose proof (exec_cmd_ops c s) as Hc. destruct (exec_cmd user c s) as [s' [v|e]].
  - etrans; [exact Hc | apply IH].
  - exact Hc.
Qed.

End Ops.

Lemma operation_scheduler who s s' : operation who s s' -> operation Scheduler s s'.
Proof. destruct 1; by constructor. Qed.

Lemma ops_scheduler who s s' : ops who s s' -> ops Scheduler s s'.
Proof.
  induction 1 as [|s1 s2 s3 Hstep _ IH]; [done|].
  eapply rtc_l; [by eapply operation_scheduler | done].
Qed.

Section OpsHost.

Variable user : nat -> UserFn.

Lemma promiseCallback_ops cb value s : ops TaskBody s (promiseCallback user cb value s).
Proof.
  unfold promiseCallback. destruct (is_function (cb_callback cb)).
  - assert (ops TaskBody s (call_function user (cb_callback cb) value s).1) as Hc.
    { destruct (cb_callback cb); cbn [call_function fst]; try done.
      - unfold call_user. destruct (fn_body (user f) value) as [cmds completion].
        pose proof (exec_cmds_ops TaskBody user cmds (log_call f value s)) as Hc.
        destruct (exec_cmds user cmds _) as [s' [e|]]; cbn [fst] in *;
          (etrans; [by apply rtc_once, op_log | done]).
      - apply call_closure_ops. }
    destruct (call_function user _ _ _) as [s' [x|e]]; cbn [fst] in Hc.
    + etrans; [exact Hc|]. destruct x; try apply resolveThenable_ops.
      case_decide; [apply reject_ops | apply then_ops].
    + etrans; [exact Hc|]. etrans; [apply reject_ops | apply resolveThenable_ops].
  - destruct (cb_action cb); [apply resolve_ops | apply reject_ops].
Qed.

Lemma run_task_ops t s : ops TaskBody s (run_task user t s).
Proof.
  unfold run_task. generalize (task_callbacks t). intros cbs.
  revert s. induction cbs as [|cb rest IH]; intros s; cbn [foldl]; [done|].
  etrans; [apply promiseCallback_ops | apply IH].
Qed.

Lemma steps_ops es s : ops Scheduler s (steps user es s).
Proof.
  revert s. induction es as [|e rest IH]; intros s; cbn [steps foldl]; [done|].
  etrans; [|apply IH]. destruct e; cbn [step].
  - apply exec_cmd_ops.
  - unfold tick. destruct (timers s) as [|t ts]; [done|].
    etrans; [by apply rtc_once, (op_fired Scheduler s ts)
            | apply (ops_scheduler TaskBody), run_task_ops].
Qed.

End OpsHost.

(** ** The shape of promise objects is kept *)

Lemma heap_ok_same_heap s s' : heap s' = heap s -> heap_ok s -> heap_ok s'.
Proof. intros Heq Hok p o. rewrite Heq. apply Hok. Qed.

Lemma heap_ok_alloc s : heap_ok s -> heap_ok (alloc_promise s).
Proof.
  intros Hok p o. cbn. intros Hp. apply lookup_app_Some in Hp as [Hp|[_ Hp]].
  - by eapply Hok.
  - destruct (p - length (heap s)) as [|n]; [|done]. cbn in Hp. by simplify_eq.
Qed.

Lemma heap_ok_resolve p v s : heap_ok s -> heap_ok (resolve p v s).
Proof.
  intros Hok. destruct (heap s !! p) as [o|] eqn:Hp.
  - destruct (decide (_status o = PENDING)) as [Hst|Hst].
    + rewrite (resolve_pending _ _ _ _ Hp Hst). intros q oq. cbn.
      destruct (decide (p = q)) as [<-|Hne].
      * rewrite list_lookup_insert_eq; [|by eapply lookup_lt_Some].
        intros ?; by simplify_eq.
      * rewrite list_lookup_insert_ne; [|done]. apply Hok.
    + by rewrite (resolve_settled _ _ _ _ Hp Hst).
  - unfold resolve, status_of. by rewrite Hp.
Qed.

Lemma heap_ok_reject p v s : heap_ok s -> heap_ok (reject p v s).
Proof.
  intros Hok. destruct (heap s !! p) as [o|] eqn:Hp.
  - destruct (decide (_status o = PENDING)) as [Hst|Hst].
    + rewrite (reject_pending _ _ _ _ Hp Hst). intros q oq. cbn.
      destruct (decide (p = q)) as [<-|Hne].
      * rewrite list_lookup_insert_eq; [|by eapply lookup_lt_Some].
        intros ?; by simplify_eq.
      * rewrite list_lookup_insert_ne; [|done]. apply Hok.
    + by rewrite (reject_settled _ _ _ _ Hp Hst).
  - unfold reject, status_of. by rewrite Hp.
Qed.

Lemma heap_ok_register this cb1 cb2 s1 :
  heap_ok s1 -> heap_ok (run this (push_fail this cb2 (push_done this cb1 s1))).
Proof.
  intros Hok.
  destruct (heap s1 !! this) as [o|] eqn:Hp.
  - pose proof (Hok _ _ Hp) as Hwf.
    unfold push_done, push_fail, modify. cbn.
    rewrite (alter_known _ _ _ _ Hp).
    erewrite alter_known; [|apply list_lookup_insert_eq; by eapply lookup_lt_Some].
    cbn. rewrite list_insert_insert_eq.
    destruct (decide (_status o = PENDING)) as [Hst|Hst].
    + erewrite run_pending; cbn;
        [| apply list_lookup_insert_eq; by eapply lookup_lt_Some | done].
      intros q oq. cbn. destruct (decide (this = q)) as [<-|Hne].
      * rewrite list_lookup_insert_eq; [|by eapply lookup_lt_Some].
        intros ?; simplify_eq. unfold well_formed in *. cbn. by rewrite Hst in *.
      * rewrite list_lookup_insert_ne; [|done]. apply Hok.
    + erewrite run_settled; cbn;
        [| apply list_lookup_insert_eq; by eapply lookup_lt_Some | done].
      intros q oq. cbn. rewrite list_insert_insert_eq.
      destruct (decide (this = q)) as [<-|Hne].
      * rewrite list_lookup_insert_eq; [|by eapply lookup_lt_Some].
        intros ?; simplify_eq. unfold well_formed. cbn. by destruct (_status o).
      * rewrite list_lookup_insert_ne; [|done]. apply Hok.
  - assert (forall f, alter f this (heap s1) = heap s1) as Halter.
    { intros f. apply list_eq. intros i. destruct (decide (this = i)) as [<-|Hne].
      - by rewrite list_lookup_alter_eq, Hp.
      - by rewrite list_lookup_alter_ne. }
    unfold push_done, push_fail, modify. cbn. rewrite !Halter.
    unfold run. cbn. by rewrite Hp.
Qed.

Lemma heap_ok_then this a b s : heap_ok s -> heap_ok (then_ this a b s).1.
Proof. intros Hok. by apply heap_ok_register, heap_ok_alloc. Qed.

Lemma operation_heap_ok who s s' : operation who s s' -> heap_ok s -> heap_ok s'.
Proof.
  destruct 1; try (by apply heap_ok_same_heap).
  - apply heap_ok_alloc.
  - apply heap_ok_resolve.
  - apply heap_ok_reject.
  - apply heap_ok_then.
  - apply heap_ok_same_heap. unfold set_settled. by destruct (races s !! sc).
  - apply heap_ok_same_heap. unfold all_record. by destruct (alls s !! sc).
Qed.

Lemma ops_heap_ok who s s' : ops who s s' -> heap_ok s -> heap_ok s'.
Proof.
  induction 1 as [|s1 s2 s3 Hstep _ IH]; [done|].
  intros Hok. apply IH. by eapply operation_heap_ok.
Qed.

(** X1. In every promise object the library builds, a pending promise has
    the value [undefined] and a settled promise has both callback queues
    empty; library calls and timer tasks keep every object in that shape. *)
Theorem promise_objects_keep_their_shape
    (user : nat -> UserFn) (es : list Event) (s : State) (p : nat) (o : PromiseObj) :
  heap_ok s ->
  heap (steps user es s) !! p = Some o ->
  match _status o with
  | PENDING => _value o = VUndefined
  | _ => _doneCallbacks o = [] ∧ _failCallbacks o = []
  end.
Proof.
  intros Hok Hp. by apply (ops_heap_ok _ _ _ (steps_ops user es s) Hok p o).
Qed.

Lemma promise_objects_keep_their_shape_witness :
  heap_ok empty_state ∧
  let s := steps identity_user
             [ECmd (CResolve (VNum 1)); ECmd (CThen 0 (VUserFn 0) VUndefined)]
             empty_state in
  exists o, heap s !! 0 = Some o ∧ _doneCallbacks o = [] ∧ _failCallbacks o = [].
Proof.
  assert (heap_ok empty_state) as Hok by (intros p o Hp; destruct p; discriminate).
  split; [exact Hok|]. cbn zeta. eexists. split; [reflexivity|].
  exact (promise_objects_keep_their_shape identity_user
           [ECmd (CResolve (VNum 1)); ECmd (CThen 0 (VUserFn 0) VUndefined)]
           empty_state 0 _ Hok eq_refl).
Defined.

(** ** [Promise.reject], [Promise.defer] and the adapter *)

Lemma Promise_reject_status reason s :
  status_of (Promise_reject reason s).2 (Promise_reject reason s).1 = Some REJECTED ∧
  value_of (Promise_reject reason s).2 (Promise_reject reason s).1 = Some reason.
Proof.
  unfold Promise_reject, new_Promise_empty. cbn [fst snd].
  by eapply reject_status; [apply alloc_promise_lookup|].
Qed.

(** X2. [Promise.reject(reason)] returns a new promise that is rejected
    with [reason] itself when the call returns, whatever [reason] is, and
    no later library call or timer task changes that. *)
Theorem Promise_reject_rejects_with_its_argument
    (user : nat -> UserFn) (reason : Value) (s : State) :
  let r := Promise_reject reason s in
  r.2 = length (heap s) ∧ heap s !! r.2 = None ∧
  forall es,
    status_of r.2 (steps user es r.1) = Some REJECTED ∧
    value_of r.2 (steps user es r.1) = Some reason.
Proof.
  intros r. split; [done|]. split; [by apply lookup_ge_None|]. intros es.
  destruct (Promise_reject_status reason s) as [Hs Hv].
  by eapply frozen_settled; [eapply reach_frozen, steps_reach| | |].
Qed.

(** X3. [Promise.defer()] returns a new pending promise with two functions.
    The first call of either function decides: [resolve(v)] fulfils the
    promise with [v], [reject(v)] rejects it with [v], and whatever is
    called afterwards, these two functions included, the promise keeps that
    status and value. *)
Theorem Promise_defer_first_call_decides (user : nat -> UserFn) (s : State) :
  let s0 := (Promise_defer s).1 in
  let d := (Promise_defer s).2 in
  (heap s !! d_promise d = None ∧ heap s0 !! d_promise d = Some fresh_promise ∧
   timers s0 = timers s) ∧
  (forall v es,
     let s1 := (call_closure (d_resolve d) v s0).1 in
     status_of (d_promise d) (steps user es s1) = Some FULLFILLED ∧
     value_of (d_promise d) (steps user es s1) = Some v) ∧
  (forall v es,
     let s1 := (call_closure (d_reject d) v s0).1 in
     status_of (d_promise d) (steps user es s1) = Some REJECTED ∧
     value_of (d_promise d) (steps user es s1) = Some v).
Proof.
  intros s0 d. pose proof (alloc_promise_lookup s) as Hnew.
  split; [|split].
  - split; [by apply lookup_ge_None|]. by split.
  - intros v es s1. destruct (resolve_status _ _ v _ Hnew eq_refl) as [Hs Hv].
    by eapply frozen_settled; [eapply reach_frozen, steps_reach| | |].
  - intros v es s1. destruct (reject_status _ _ v _ Hnew eq_refl) as [Hs Hv].
    by eapply frozen_settled; [eapply reach_frozen, steps_reach| | |].
Qed.

Lemma then_on_resolved v a b s :
  timers (then_ (Promise_resolve v s).2 a b (Promise_resolve v s).1).1 =
  timers s ++
    [{| task_callbacks := []; task_value := v |};
     {| task_callbacks := [makeCallback (S (length (heap s))) a ActResolve];
        task_value := v |}].
Proof.
  unfold Promise_resolve, new_Promise_empty. cbn [fst snd].
  rewrite (resolve_pending _ _ _ _ (alloc_promise_lookup s) eq_refl).
  erewrite then_settled; [| cbn; apply list_lookup_insert_eq; cbn;
                            rewrite length_app; cbn; lia | done].
  cbn. rewrite length_insert, length_app, <- app_assoc. cbn.
  by rewrite Nat.add_1_r.
Qed.

Lemma then_on_rejected v a b s :
  timers (then_ (Promise_reject v s).2 a b (Promise_reject v s).1).1 =
  timers s ++
    [{| task_callbacks := []; task_value := v |};
     {| task_callbacks := [makeCallback (S (length (heap s))) b ActReject];
        task_value := v |}].
Proof.
  unfold Promise_reject, new_Promise_empty. cbn [fst snd].
  rewrite (reject_pending _ _ _ _ (alloc_promise_lookup s) eq_refl).
  erewrite then_settled; [| cbn; apply list_lookup_insert_eq; cbn;
                            rewrite length_app; cbn; lia | done].
  cbn. rewrite length_insert, length_app, <- app_assoc. cbn.
  by rewrite Nat.add_1_r.
Qed.

(** X4. The adapter's contract, as the harness uses it: after
    [resolved(v).then(f, g)] and the timer ticks then due, the user
    function [f] has been called once, with [v], after the handlers of the
    timers that were already waiting, and [g] has not been called; after
    [rejected(v).then(f, g)] it is [g] that has been called once with [v].
    On the promise of [deferred()], [then(f, g)] schedules nothing. *)
Theorem adapter_promises_call_the_matching_handler
    (user : nat -> UserFn) (v : Value) (f g : nat) (s : State) :
  let due := replicate (length (timers s) + 2) ETick in
  let s1 := (then_ (resolved v s).2 (VUserFn f) (VUserFn g) (resolved v s).1).1 in
  let s2 := (then_ (rejected v s).2 (VUserFn f) (VUserFn g) (rejected v s).1).1 in
  let s3 := (then_ (d_promise (deferred s).2) (VUserFn f) (VUserFn g) (deferred s).1).1 in
  trace (steps user due s1) = trace s ++ task_calls (timers s) ++ [(f, v)] ∧
  trace (steps user due s2) = trace s ++ task_calls (timers s) ++ [(g, v)] ∧
  timers s3 = timers s ∧ trace s3 = trace s.
Proof.
  intros due s1 s2 s3. split; [|split; [|split]].
  - pose proof (then_on_resolved v (VUserFn f) (VUserFn g) s) as Ht.
    rewrite <- (app_nil_r (_ ++ _)) in Ht.
    destruct (ticks_fifo user _ _ _ Ht) as [Htr _].
    rewrite length_app in Htr. cbn [length] in Htr.
    subst due s1. unfold resolved. rewrite Htr.
    rewrite (reach_trace s); [| etrans; [apply Promise_resolve_reach | apply then_reach]].
    unfold task_calls. by rewrite flat_map_app.
  - pose proof (then_on_rejected v (VUserFn f) (VUserFn g) s) as Ht.
    rewrite <- (app_nil_r (_ ++ _)) in Ht.
    destruct (ticks_fifo user _ _ _ Ht) as [Htr _].
    rewrite length_app in Htr. cbn [length] in Htr.
    subst due s2. unfold rejected. rewrite Htr.
    rewrite (reach_trace s); [| etrans; [apply Promise_reject_reach | apply then_reach]].
    unfold task_calls. by rewrite flat_map_app.
  - subst s3. unfold deferred, Promise_defer, new_Promise_empty. cbn [fst snd d_promise].
    by rewrite (then_pending _ _ _ _ _ (alloc_promise_lookup s) eq_refl).
  - apply reach_trace. etrans; [apply Promise_defer_reach | apply then_reach].
Qed.

(** ** What a callback made by [then] does to the downstream promise *)

Lemma resolveThenable_plain x p s :
  plain x = true -> resolveThenable x p s = resolve p x s.
Proof. destruct x as [| | | | | | | |id [| |]| |]; try done. Qed.

Lemma status_forever user es s p st v :
  status_of p s = Some st -> st ≠ PENDING -> value_of p s = Some v ->
  status_of p (steps user es s) = Some st ∧ value_of p (steps user es s) = Some v.
Proof.
  intros Hs Hne Hv. by eapply frozen_settled; [eapply reach_frozen, steps_reach| | |].
Qed.

(** X5. A callback made by [then] for a handler that is not a function
    hands the outcome of the source on: with action ['resolve'] it fulfils
    the pending downstream promise with the value it is called with, with
    action ['reject'] it rejects it with that value; no user function is
    called, and the outcome stays. *)
Theorem missing_handler_passes_the_outcome_on
    (user : nat -> UserFn) (cb : Callback) (value : Value) (s : State) (o : PromiseObj) :
  is_function (cb_callback cb) = false ->
  heap s !! cb_promise cb = Some o -> _status o = PENDING ->
  let s' := promiseCallback user cb value s in
  let st := match cb_action cb with ActResolve => FULLFILLED | ActReject => REJECTED end in
  trace s' = trace s ∧
  forall es,
    status_of (cb_promise cb) (steps user es s') = Some st ∧
    value_of (cb_promise cb) (steps user es s') = Some value.
Proof.
  intros Hfn Hp Hst s' st. subst s' st. unfold promiseCallback. rewrite Hfn.
  destruct (cb_action cb).
  - split; [apply (reach_trace _ _ (resolve_reach Library _ _ _))|]. intros es.
    destruct (resolve_status _ _ value _ Hp Hst) as [Hs Hv]. by apply status_forever.
  - split; [apply (reach_trace _ _ (reject_reach Library _ _ _))|]. intros es.
    destruct (reject_status _ _ value _ Hp Hst) as [Hs Hv]. by apply status_forever.
Qed.

Lemma missing_handler_passes_the_outcome_on_witness :
  let cb := makeCallback 1 VNull ActReject in
  heap two_promises !! 1 = Some fresh_promise ∧
  status_of 1 (promiseCallback identity_user cb (VStr "no") two_promises) = Some REJECTED ∧
  value_of 1 (promiseCallback identity_user cb (VStr "no") two_promises) = Some (VStr "no").
Proof.
  intros cb. split; [reflexivity|].
  destruct (missing_handler_passes_the_outcome_on identity_user cb (VStr "no")
              two_promises fresh_promise eq_refl eq_refl eq_refl) as [_ H].
  exact (H []).
Defined.

(** X6. When a handler returns a value that is not a promise and has no
    callable or throwing [then], the downstream promise, pending at that
    point, is fulfilled with that value, for the ['reject'] callback as for
    the ['resolve'] one, and stays so. *)
Theorem handler_result_fulfils_downstream
    (user : nat -> UserFn) (cb : Callback) (value x : Value) (s s1 : State)
    (o : PromiseObj) :
  is_function (cb_callback cb) = true ->
  call_function user (cb_callback cb) value s = (s1, Normal x) ->
  plain x = true ->
  heap s1 !! cb_promise cb = Some o -> _status o = PENDING ->
  let s2 := promiseCallback user cb value s in
  s2 = resolve (cb_promise cb) x s1 ∧
  forall es,
    status_of (cb_promise cb) (steps user es s2) = Some FULLFILLED ∧
    value_of (cb_promise cb) (steps user es s2) = Some x.
Proof.
  intros Hfn Hcall Hplain Hp Hst s2.
  assert (s2 = resolve (cb_promise cb) x s1) as ->.
  { subst s2. unfold promiseCallback. rewrite Hfn, Hcall.
    rewrite <- (resolveThenable_plain _ _ _ Hplain). by destruct x. }
  split; [done|]. intros es.
  destruct (resolve_status _ _ x _ Hp Hst) as [Hs Hv]. by apply status_forever.
Qed.

Lemma handler_result_fulfils_downstream_witness :
  let cb := makeCallback 1 (VUserFn 0) ActReject in
  let s2 := promiseCallback identity_user cb (VStr "reason") two_promises in
  heap (log_call 0 (VStr "reason") two_promises) !! 1 = Some fresh_promise ∧
  status_of 1 s2 = Some FULLFILLED ∧ value_of 1 s2 = Some (VStr "reason").
Proof.
  intros cb s2. split; [reflexivity|].
  destruct (handler_result_fulfils_downstream identity_user cb (VStr "reason")
              (VStr "reason") two_promises (log_call 0 (VStr "reason") two_promises)
              fresh_promise eq_refl eq_refl eq_refl eq_refl eq_refl) as [_ H].
  exact (H []).
Defined.

(** X7. When a handler returns the very promise its callback settles, that
    promise is rejected with a [TypeError], and stays so. *)
Theorem handler_returning_its_own_promise_is_rejected
    (user : nat -> UserFn) (cb : Callback) (value : Value) (s s1 : State)
    (o : PromiseObj) :
  is_function (cb_callback cb) = true ->
  call_function user (cb_callback cb) value s = (s1, Normal (VPromise (cb_promise cb))) ->
  heap s1 !! cb_promise cb = Some o -> _status o = PENDING ->
  let s2 := promiseCallback user cb value s in
  s2 = reject (cb_promise cb) same_promise_error s1 ∧
  forall es,
    status_of (cb_promise cb) (steps user es s2) = Some REJECTED ∧
    value_of (cb_promise cb) (steps user es s2) = Some same_promise_error.
Proof.
  intros Hfn Hcall Hp Hst s2.
  assert (s2 = reject (cb_promise cb) same_promise_error s1) as ->.
  { subst s2. unfold promiseCallback. rewrite Hfn, Hcall. by case_decide. }
  split; [done|]. intros es.
  destruct (reject_status _ _ same_promise_error _ Hp Hst) as [Hs Hv].
  by apply status_forever.
Qed.

Lemma handler_returning_its_own_promise_is_rejected_witness :
  let cb := makeCallback 1 (VUserFn 0) ActResolve in
  let s2 := promiseCallback circular_user cb (VNum 0) two_promises in
  heap (log_call 0 (VNum 0) two_promises) !! 1 = Some fresh_promise ∧
  status_of 1 s2 = Some REJECTED ∧ value_of 1 s2 = Some same_promise_error.
Proof.
  intros cb s2. split; [reflexivity|].
  destruct (handler_returning_its_own_promise_is_rejected circular_user cb (VNum 0)
              two_promises (log_call 0 (VNum 0) two_promises)
              fresh_promise eq_refl eq_refl eq_refl eq_refl) as [_ H].
  exact (H []).
Defined.

(** [then] on a settled promise whose queues are empty, when no timer is
    waiting: the next tick runs the callback of the matching handler on the
    state with the new promise allocated. *)
Lemma then_settled_tick user this o a b s :
  heap s !! this = Some o -> _status o ≠ PENDING ->
  _doneCallbacks o = [] -> _failCallbacks o = [] -> timers s = [] ->
  tick user (then_ this a b s).1 =
  promiseCallback user
    (match _status o with
     | FULLFILLED => makeCallback (length (heap s)) a ActResolve
     | _ => makeCallback (length (heap s)) b ActReject
     end) (_value o) (alloc_promise s).
Proof.
  intros Hp Hne Hdone Hfail Ht. rewrite (then_settled _ _ _ _ _ Hp Hne).
  unfold tick. cbn [timers with_heap with_timers]. rewrite Ht, Hdone, Hfail. cbn [app].
  assert (with_timers []
            (with_heap (<[this := {| _status := _status o; _value := _value o;
                                     _doneCallbacks := []; _failCallbacks := [] |}]>
                          (heap s ++ [fresh_promise]))
               (with_timers
                  [{| task_callbacks :=
                        match _status o with
                        | FULLFILLED => [makeCallback (length (heap s)) a ActResolve]
                        | _ => [makeCallback (length (heap s)) b ActReject]
                        end;
                      task_value := _value o |}] s))
          = alloc_promise s) as ->.
  { unfold alloc_promise, with_heap, with_timers. cbn. rewrite Ht. f_equal.
    apply list_insert_id. rewrite lookup_app_l_Some with (x := o); [|done].
    destruct o. cbn in *. by subst. }
  unfold run_task. cbn [task_callbacks task_value]. by destruct (_status o).
Qed.

(** X8. [done(f)] is [then(f, null)], and [fail(g)] and [catch(g)] are both
    [then(null, g)]: on a settled promise, when no timer is waiting, the
    next tick hands the outcome the alias has no handler for to the new
    promise, which is rejected with the reason of a rejected source after
    [done], and fulfilled with the value of a fulfilled source after [fail]
    or [catch], without any user function being called. *)
Theorem aliases_pass_the_other_outcome_on
    (user : nat -> UserFn) (this : nat) (o : PromiseObj) (h : Value) (s : State) :
  heap s !! this = Some o ->
  _doneCallbacks o = [] -> _failCallbacks o = [] -> timers s = [] ->
  let promise := length (heap s) in
  fail this h s = catch this h s ∧
  (_status o = REJECTED ->
   let s' := tick user (done this h s).1 in
   (done this h s).2 = promise ∧ trace s' = trace s ∧
   forall es, status_of promise (steps user es s') = Some REJECTED ∧
              value_of promise (steps user es s') = Some (_value o)) ∧
  (_status o = FULLFILLED ->
   let s' := tick user (fail this h s).1 in
   (fail this h s).2 = promise ∧ trace s' = trace s ∧
   forall es, status_of promise (steps user es s') = Some FULLFILLED ∧
              value_of promise (steps user es s') = Some (_value o)).
Proof.
  intros Hp Hdone Hfail Ht promise. split; [done|]. split; intros Hst s'.
  - split; [done|]. subst s'. unfold done.
    rewrite (then_settled_tick user _ _ _ _ _ Hp); try done; [|by rewrite Hst].
    rewrite Hst. unfold promiseCallback. cbn [cb_callback is_function cb_action cb_promise].
    split; [by rewrite (reach_trace _ _ (reject_reach Library _ _ _))|]. intros es.
    destruct (reject_status _ _ (_value o) _ (alloc_promise_lookup s) eq_refl) as [Hs Hv].
    by apply status_forever.
  - split; [done|]. subst s'. unfold fail.
    rewrite (then_settled_tick user _ _ _ _ _ Hp); try done; [|by rewrite Hst].
    rewrite Hst. unfold promiseCallback. cbn [cb_callback is_function cb_action cb_promise].
    split; [by rewrite (reach_trace _ _ (resolve_reach Library _ _ _))|]. intros es.
    destruct (resolve_status _ _ (_value o) _ (alloc_promise_lookup s) eq_refl) as [Hs Hv].
    by apply status_forever.
Qed.

Lemma aliases_pass_the_other_outcome_on_witness :
  timers quiet_promises = [] ∧
  let s' := tick identity_user (catch 0 (VUserFn 3) quiet_promises).1 in
  trace s' = [] ∧ status_of 2 s' = Some FULLFILLED ∧ value_of 2 s' = Some (VNum 1).
Proof.
  split; [reflexivity|].
  destruct (aliases_pass_the_other_outcome_on identity_user 0
              {| _status := FULLFILLED; _value := VNum 1;
                 _doneCallbacks := []; _failCallbacks := [] |}
              (VUserFn 3) quiet_promises eq_refl eq_refl eq_refl eq_refl)
    as (Halias & _ & H).
  destruct (H eq_refl) as (_ & Htrace & Hforever).
  cbn zeta. rewrite <- Halias. split; [exact Htrace | exact (Hforever [])].
Defined.

Lemma tick_single user cb v s :
  timers s = [{| task_callbacks := [cb]; task_value := v |}] ->
  tick user s = promiseCallback user cb v (with_timers [] s).
Proof. intros Ht. unfold tick. by rewrite Ht. Qed.

Lemma follow_resolve user P n v S oP es :
  heap S !! P = Some oP -> _status oP = PENDING ->
  let S' := promiseCallback user (makeCallback n (VClosure (FResolve P)) ActResolve) v S in
  status_of P (steps user es S') = Some FULLFILLED ∧
  value_of P (steps user es S') = Some v.
Proof.
  intros Hp Hst S'. destruct (resolve_status _ _ v _ Hp Hst) as [Hs Hv].
  eapply frozen_settled; [|exact Hs|done|exact Hv].
  eapply frozen_trans; [|eapply reach_frozen, steps_reach].
  eapply reach_frozen. subst S'. unfold promiseCallback. cbn.
  apply (resolve_reach Library).
Qed.

Lemma follow_reject user P n v S oP es :
  heap S !! P = Some oP -> _status oP = PENDING ->
  let S' := promiseCallback user (makeCallback n (VClosure (FReject P)) ActReject) v S in
  status_of P (steps user es S') = Some REJECTED ∧
  value_of P (steps user es S') = Some v.
Proof.
  intros Hp Hst S'. destruct (reject_status _ _ v _ Hp Hst) as [Hs Hv].
  eapply frozen_settled; [|exact Hs|done|exact Hv].
  eapply frozen_trans; [|eapply reach_frozen, steps_reach].
  eapply reach_frozen. subst S'. unfold promiseCallback. cbn.
  apply (resolve_reach Library).
Qed.

(** X9. When a handler returns another promise [q] of the library, the
    downstream promise takes the outcome of [q].  If [q] is settled, the
    next tick settles the downstream promise with the status and value of
    [q]; if [q] is pending, the downstream promise stays pending, and is
    fulfilled with [v] on the tick after [q] is fulfilled with [v],
    rejected with [v] on the tick after [q] is rejected with [v].  (Stated
    for a [q] with empty queues and with no other timer waiting, so that
    the tick in question runs this callback alone.) *)
Theorem handler_returning_a_promise_is_followed
    (user : nat -> UserFn) (cb : Callback) (value : Value) (q : nat) (s s1 : State)
    (oP oq : PromiseObj) :
  is_function (cb_callback cb) = true ->
  call_function user (cb_callback cb) value s = (s1, Normal (VPromise q)) ->
  q ≠ cb_promise cb ->
  heap s1 !! cb_promise cb = Some oP -> _status oP = PENDING ->
  heap s1 !! q = Some oq -> _doneCallbacks oq = [] -> _failCallbacks oq = [] ->
  timers s1 = [] ->
  let P := cb_promise cb in
  let s2 := promiseCallback user cb value s in
  status_of P s2 = Some PENDING ∧
  match _status oq with
  | PENDING =>
      forall v es,
        (status_of P (steps user es (tick user (resolve q v s2))) = Some FULLFILLED ∧
         value_of P (steps user es (tick user (resolve q v s2))) = Some v) ∧
        (status_of P (steps user es (tick user (reject q v s2))) = Some REJECTED ∧
         value_of P (steps user es (tick user (reject q v s2))) = Some v)
  | st =>
      forall es,
        status_of P (steps user es (tick user s2)) = Some st ∧
        value_of P (steps user es (tick user s2)) = Some (_value oq)
  end.
Proof.
  intros Hfn Hcall Hne Hp Hst Hq Hdone Hfail Ht P s2.
  assert (s2 = (then_ q (VClosure (FResolve P)) (VClosure (FReject P)) s1).1) as ->.
  { subst s2. unfold promiseCallback. rewrite Hfn, Hcall. by case_decide. }
  assert (P < length (heap s1)) as HltP by by eapply lookup_lt_Some.
  assert (q < length (heap s1)) as Hltq by by eapply lookup_lt_Some.
  assert (heap (alloc_promise s1) !! P = Some oP) as HpA
    by (cbn; by apply lookup_app_l_Some).
  destruct (decide (_status oq = PENDING)) as [Hsq|Hsq].
  - rewrite Hsq. rewrite (then_pending _ _ _ _ _ Hq Hsq), Hdone, Hfail. cbn [app].
    set (s2 := with_heap _ s1).
    assert (heap s2 !! P = Some oP) as Hp2.
    { subst s2. cbn. rewrite list_lookup_insert_ne; [|done]. by apply lookup_app_l_Some. }
    split; [unfold status_of; by rewrite Hp2, <- Hst|].
    assert (exists o2, heap s2 !! q = Some o2 ∧ _status o2 = PENDING ∧
              _doneCallbacks o2 =
                [makeCallback (length (heap s1)) (VClosure (FResolve P)) ActResolve] ∧
              _failCallbacks o2 =
                [makeCallback (length (heap s1)) (VClosure (FReject P)) ActReject])
      as (o2 & Hq2 & Hs2 & Hd2 & Hf2).
    { eexists. split; [subst s2; cbn; apply list_lookup_insert_eq;
                       rewrite length_app; lia|]. done. }
    assert (timers s2 = []) as Ht2 by (subst s2; by cbn).
    clearbody s2. intros v es. split.
    + rewrite (resolve_pending _ _ _ _ Hq2 Hs2), Hd2.
      erewrite tick_single; [|cbn; by rewrite Ht2].
      eapply follow_resolve; [|exact Hst]. cbn.
      rewrite list_lookup_insert_ne; [done|done].
    + rewrite (reject_pending _ _ _ _ Hq2 Hs2), Hf2.
      erewrite tick_single; [|cbn; by rewrite Ht2].
      eapply follow_reject; [|exact Hst]. cbn.
      rewrite list_lookup_insert_ne; [done|done].
  - split.
    { rewrite (then_settled _ _ _ _ _ Hq Hsq). unfold status_of. cbn.
      rewrite list_lookup_insert_ne; [|done].
      rewrite lookup_app_l_Some with (x := oP); [|done]. cbn. by rewrite Hst. }
    rewrite (then_settled_tick user _ _ _ _ _ Hq Hsq Hdone Hfail Ht).
    destruct (_status oq) eqn:Hstq; [done| |]; intros es.
    + by eapply follow_resolve.
    + by eapply follow_reject.
Qed.

Lemma handler_returning_a_promise_is_followed_witness :
  let cb := makeCallback 1 (VUserFn 0) ActResolve in
  let user := fun _ : nat =>
                {| fn_length := 1; fn_body := fun _ => ([], Normal (VPromise 0)) |} in
  let s2 := promiseCallback user cb (VNum 5) quiet_promises in
  timers (log_call 0 (VNum 5) quiet_promises) = [] ∧
  status_of (cb_promise cb) s2 = Some PENDING ∧
  forall es,
    status_of (cb_promise cb) (steps user es (tick user s2)) = Some FULLFILLED ∧
    value_of (cb_promise cb) (steps user es (tick user s2)) = Some (VNum 1).
Proof.
  intros cb user s2. split; [reflexivity|].
  exact (handler_returning_a_promise_is_followed user cb (VNum 5) 0 quiet_promises
           (log_call 0 (VNum 5) quiet_promises) fresh_promise
           {| _status := FULLFILLED; _value := VNum 1;
              _doneCallbacks := []; _failCallbacks := [] |}
           eq_refl eq_refl ltac:(discriminate) eq_refl eq_refl eq_refl eq_refl eq_refl
           eq_refl).
Defined.

(** ** Foreign thenables *)

Lemma is_invoked_new s : is_invoked (length (latches s)) (new_latch s) = false.
Proof.
  unfold is_invoked, new_latch. cbn. rewrite lookup_app_r; [|done].
  by rewrite Nat.sub_diag.
Qed.

Lemma is_invoked_new_fire s :
  is_invoked (length (latches s)) (fire_latch (length (latches s)) (new_latch s)) = true.
Proof. apply is_invoked_fire. unfold new_latch. cbn. rewrite length_app. cbn. lia. Qed.

Lemma resolveThenable_throw id e p s :
  resolveThenable (VThenable id (ThenFn (TThrow e))) p s = reject p e (new_latch s).
Proof. cbn [resolveThenable call_then]. by rewrite is_invoked_new. Qed.

Lemma resolveThenable_reject_first id e k p s :
  resolveThenable (VThenable id (ThenFn (TReject e k))) p s
  = reject p e (fire_latch (length (latches s)) (new_latch s)).
Proof.
  cbn [resolveThenable call_then]. rewrite is_invoked_new.
  assert (is_invoked (length (latches s))
            (reject p e (fire_latch (length (latches s)) (new_latch s))) = true) as Hl
    by apply (reach_latched _ _ _ (reject_reach Library _ _ _)), is_invoked_new_fire.
  rewrite (call_then_invoked _ _ _ _ _ Hl). destruct (body_end k); [by rewrite Hl | done].
Qed.

Lemma resolveThenable_resolve_first id y k p s :
  plain y = true -> same_object y (VThenable id (ThenFn (TResolve y k))) = false ->
  resolveThenable (VThenable id (ThenFn (TResolve y k))) p s
  = resolve p y (fire_latch (length (latches s)) (new_latch s)).
Proof.
  intros Hplain Hsame. cbn [resolveThenable call_then]. rewrite is_invoked_new, Hsame.
  rewrite (resolveThenable_plain _ _ _ Hplain).
  assert (is_invoked (length (latches s))
            (resolve p y (fire_latch (length (latches s)) (new_latch s))) = true) as Hl
    by apply (reach_latched _ _ _ (resolve_reach Library _ _ _)), is_invoked_new_fire.
  rewrite (call_then_invoked _ _ _ _ _ Hl). destruct (body_end k); [by rewrite Hl | done].
Qed.

(** X10. What the target promise, pending, becomes when [resolveThenable]
    meets a foreign object.  Reading [then] throws [e]: rejected with [e].
    [then] is not a function: fulfilled with the object.  [then] throws [e]
    before calling anything: rejected with [e].  [then] first calls its
    second argument with [e]: rejected with [e], whatever it calls or
    throws afterwards.  [then] first calls its first argument with a value
    [y] that is neither a promise nor a thenable: fulfilled with [y],
    whatever it calls or throws afterwards.  [then] returns without calling
    anything: the promise objects and the timer queue are as before. *)
Theorem foreign_then_first_action_decides
    (user : nat -> UserFn) (id p : nat) (s : State) (o : PromiseObj) :
  heap s !! p = Some o -> _status o = PENDING ->
  let outcome (m : ThenMember) (st : Status) (v : Value) :=
    forall es,
      status_of p (steps user es (resolveThenable (VThenable id m) p s)) = Some st ∧
      value_of p (steps user es (resolveThenable (VThenable id m) p s)) = Some v in
  (forall e, outcome (ThenThrows e) REJECTED e) ∧
  outcome ThenNotCallable FULLFILLED (VThenable id ThenNotCallable) ∧
  (forall e, outcome (ThenFn (TThrow e)) REJECTED e) ∧
  (forall e k, outcome (ThenFn (TReject e k)) REJECTED e) ∧
  (forall y k, plain y = true ->
     same_object y (VThenable id (ThenFn (TResolve y k))) = false ->
     outcome (ThenFn (TResolve y k)) FULLFILLED y) ∧
  (heap (resolveThenable (VThenable id (ThenFn TReturn)) p s) = heap s ∧
   timers (resolveThenable (VThenable id (ThenFn TReturn)) p s) = timers s).
Proof.
  intros Hp Hst outcome. subst outcome. cbn beta.
  split; [|split; [|split; [|split; [|split]]]].
  - intros e es. cbn [resolveThenable].
    destruct (reject_status _ _ e _ Hp Hst) as [Hs Hv]. by apply status_forever.
  - intros es. cbn [resolveThenable].
    destruct (resolve_status _ _ (VThenable id ThenNotCallable) _ Hp Hst) as [Hs Hv].
    by apply status_forever.
  - intros e es. rewrite resolveThenable_throw.
    destruct (reject_status p o e (new_latch s) Hp Hst) as [Hs Hv]. by apply status_forever.
  - intros e k es. rewrite resolveThenable_reject_first.
    destruct (reject_status p o e (fire_latch (length (latches s)) (new_latch s)) Hp Hst)
      as [Hs Hv].
    by apply status_forever.
  - intros y k Hplain Hsame es. rewrite (resolveThenable_resolve_first _ _ _ _ _ Hplain Hsame).
    destruct (resolve_status p o y (fire_latch (length (latches s)) (new_latch s)) Hp Hst)
      as [Hs Hv].
    by apply status_forever.
  - by cbn.
Qed.

Lemma foreign_then_first_action_decides_witness :
  let x := VThenable 9 (ThenFn (TReject (VStr "no") (TResolve (VNum 1) (TThrow (VNum 2))))) in
  heap two_promises !! 1 = Some fresh_promise ∧
  status_of 1 (resolveThenable x 1 two_promises) = Some REJECTED ∧
  value_of 1 (resolveThenable x 1 two_promises) = Some (VStr "no").
Proof.
  intros x. split; [reflexivity|].
  destruct (foreign_then_first_action_decides identity_user 9 1 two_promises fresh_promise
              eq_refl eq_refl) as (_ & _ & _ & H & _).
  exact (H (VStr "no") (TResolve (VNum 1) (TThrow (VNum 2))) []).
Defined.

Lemma same_object_nest m v k :
  primitive v = true -> same_object (nest m v) (VThenable m k) = false.
Proof.
  intros Hv. destruct m as [|m]; cbn.
  - by destruct v.
  - apply bool_decide_eq_false. lia.
Qed.

Lemma resolveThenable_nest n v p s o :
  primitive v = true -> heap s !! p = Some o -> _status o = PENDING ->
  status_of p (resolveThenable (nest n v) p s) = Some FULLFILLED ∧
  value_of p (resolveThenable (nest n v) p s) = Some v.
Proof.
  intros Hv. revert s. induction n as [|n IH]; intros s Hp Hst.
  - cbn [nest]. rewrite resolveThenable_plain; [|by destruct v].
    by eapply resolve_status.
  - cbn [nest resolveThenable call_then].
    rewrite is_invoked_new, (same_object_nest _ _ _ Hv). cbn [call_then].
    by apply IH.
Qed.

(** X11. Thenables nested to any depth are unwrapped in one go: when each
    of [n] objects hands the next to the first argument of its [then], and
    the innermost hands over a primitive value [v], [resolveThenable]
    fulfils the pending target promise with [v], and it stays so. *)
Theorem nested_thenables_are_unwrapped
    (user : nat -> UserFn) (n : nat) (v : Value) (p : nat) (s : State) (o : PromiseObj)
    (es : list Event) :
  primitive v = true -> heap s !! p = Some o -> _status o = PENDING ->
  status_of p (steps user es (resolveThenable (nest n v) p s)) = Some FULLFILLED ∧
  value_of p (steps user es (resolveThenable (nest n v) p s)) = Some v.
Proof.
  intros Hv Hp Hst. destruct (resolveThenable_nest n v p s o Hv Hp Hst) as [Hs Hval].
  by apply status_forever.
Qed.

Lemma nested_thenables_are_unwrapped_witness :
  primitive (VNum 8) = true ∧ heap two_promises !! 1 = Some fresh_promise ∧
  value_of 1 (resolveThenable (nest 3 (VNum 8)) 1 two_promises) = Some (VNum 8).
Proof.
  split; [reflexivity|]. split; [reflexivity|].
  exact (proj2 (nested_thenables_are_unwrapped identity_user 3 (VNum 8) 1 two_promises
                  fresh_promise [] eq_refl eq_refl eq_refl)).
Defined.

(** ** The combinators *)

(** X12. [Promise.race] and [Promise.all] make the same test on their
    argument: a value that is falsy or has no own [length] makes each throw
    the same [TypeError] before anything is allocated or scheduled, and on
    every other argument each completes normally.  Among the arguments
    refused are [undefined], [null], booleans, numbers, the empty string,
    promises and error objects. *)
Theorem combinators_refuse_what_is_not_array_like
    (user : nat -> UserFn) (iterable : Value) (s : State) :
  (array_like user iterable = None ->
   Promise_race user iterable s = (s, Throw iterable_error) ∧
   Promise_all user iterable s = (s, Throw iterable_error)) ∧
  (array_like user iterable ≠ None ->
   (Promise_race user iterable s).2 = Normal VUndefined ∧
   (Promise_all user iterable s).2 = Normal VUndefined) ∧
  (primitive iterable = true -> iterable ≠ VStr "" ->
   (forall str, iterable ≠ VStr str) -> array_like user iterable = None) ∧
  array_like user (VStr "") = None ∧
  (forall p msg, array_like user (VPromise p) = None ∧
                 array_like user (VTypeError msg) = None).
Proof.
  unfold Promise_race, Promise_all. split; [|split; [|split; [|split]]].
  - by intros ->.
  - intros Hsome. by destruct (array_like user iterable).
  - intros Hprim _ Hstr. destruct iterable; try done. by destruct (Hstr s0).
  - done.
  - done.
Qed.

Lemma combinators_refuse_what_is_not_array_like_witness :
  Promise_race identity_user (VNum 5) two_promises = (two_promises, Throw iterable_error) ∧
  (Promise_all identity_user (VStr "ab") two_promises).2 = Normal VUndefined.
Proof.
  destruct (combinators_refuse_what_is_not_array_like identity_user (VNum 5) two_promises)
    as (H1 & _).
  destruct (combinators_refuse_what_is_not_array_like identity_user (VStr "ab") two_promises)
    as (_ & H2 & _).
  split; [exact (proj1 (H1 eq_refl)) | exact (proj2 (H2 ltac:(discriminate)))].
Defined.

Lemma mutation_race_settled who sc s s' :
  mutation who s s' -> race_settled sc s -> race_settled sc s'.
Proof.
  destruct 1; intros (r & Hr & Hset); try (by exists r).
  - exists r. split; [|done]. cbn. by apply lookup_app_l_Some.
  - unfold set_settled. destruct (races s !! sc0) as [r0|] eqn:Hr0; [|by exists r].
    cbn. destruct (decide (sc0 = sc)) as [->|Hne].
    + eexists. split; [apply list_lookup_insert_eq; by eapply lookup_lt_Some|done].
    + exists r. split; [|done]. cbn. by rewrite list_lookup_insert_ne.
  - exists r. split; [|done]. unfold all_record. by destruct (alls s !! sc0).
Qed.

Lemma reach_race_settled who sc s s' :
  reach who s s' -> race_settled sc s -> race_settled sc s'.
Proof.
  induction 1 as [|s1 s2 s3 Hstep _ IH]; [done|].
  intros H. apply IH. by eapply mutation_race_settled.
Qed.

Lemma race_callback_settled c sc arg s :
  c = FRaceResolve sc ∨ c = FRaceReject sc -> race_settled sc s ->
  call_closure c arg s = (s, Normal VUndefined).
Proof. intros [-> | ->] (r & Hr & Hset); cbn [call_closure]; by rewrite Hr, Hset. Qed.

(** X13. The two callbacks of one [Promise.race] call share the variable
    [settled]: the first call of either one settles the pending result
    promise, [resolveRaceCallback] fulfilling it and [rejectRaceCallback]
    rejecting it with the argument; from then on, whatever library calls
    and timer tasks come in between, a call of either one returns without
    changing the state. *)
Theorem race_first_settlement_wins
    (user : nat -> UserFn) (sc : nat) (c2 : Closure) (s : State) (r : RaceScope)
    (o : PromiseObj) :
  c2 = FRaceResolve sc ∨ c2 = FRaceReject sc ->
  races s !! sc = Some r -> settled r = false ->
  heap s !! race_promise r = Some o -> _status o = PENDING ->
  forall v1 es v2,
    let s1 := (call_closure (FRaceResolve sc) v1 s).1 in
    let s1' := (call_closure (FRaceReject sc) v1 s).1 in
    (status_of (race_promise r) (steps user es s1) = Some FULLFILLED ∧
     value_of (race_promise r) (steps user es s1) = Some v1 ∧
     call_closure c2 v2 (steps user es s1) = (steps user es s1, Normal VUndefined)) ∧
    (status_of (race_promise r) (steps user es s1') = Some REJECTED ∧
     value_of (race_promise r) (steps user es s1') = Some v1 ∧
     call_closure c2 v2 (steps user es s1') = (steps user es s1', Normal VUndefined)).
Proof.
  intros Hc2 Hr Hset Hp Hst v1 es v2 s1 s1'.
  assert (race_settled sc (set_settled sc s)) as Hdone.
  { unfold set_settled. rewrite Hr. eexists.
    split; [cbn; apply list_lookup_insert_eq; by eapply lookup_lt_Some | done]. }
  assert (heap (set_settled sc s) !! race_promise r = Some o) as Hp'
    by (unfold set_settled; by rewrite Hr).
  split.
  - subst s1. cbn [call_closure]. rewrite Hr, Hset. cbn [fst].
    destruct (resolve_status _ _ v1 _ Hp' Hst) as [Hs Hv].
    destruct (status_forever user es _ _ _ _ Hs ltac:(done) Hv) as [Hs' Hv'].
    split; [done|]. split; [done|]. apply (race_callback_settled _ sc); [done|].
    eapply reach_race_settled; [apply steps_reach|].
    eapply reach_race_settled; [apply (resolve_reach Library)|done].
  - subst s1'. cbn [call_closure]. rewrite Hr, Hset. cbn [fst].
    destruct (reject_status _ _ v1 _ Hp' Hst) as [Hs Hv].
    destruct (status_forever user es _ _ _ _ Hs ltac:(done) Hv) as [Hs' Hv'].
    split; [done|]. split; [done|]. apply (race_callback_settled _ sc); [done|].
    eapply reach_race_settled; [apply steps_reach|].
    eapply reach_race_settled; [apply (reject_reach Library)|done].
Qed.

Lemma race_first_settlement_wins_witness :
  let s := new_race 1 two_promises in
  let s1 := (call_closure (FRaceReject 0) (VStr "late") s).1 in
  races s !! 0 = Some {| race_promise := 1; settled := false |} ∧
  status_of 1 s1 = Some REJECTED ∧
  call_closure (FRaceResolve 0) (VNum 3) s1 = (s1, Normal VUndefined).
Proof.
  intros s s1. split; [reflexivity|].
  destruct (race_first_settlement_wins identity_user 0 (FRaceResolve 0) s
              {| race_promise := 1; settled := false |} fresh_promise
              (or_introl eq_refl) eq_refl eq_refl eq_refl eq_refl
              (VStr "late") [] (VNum 3)) as [_ (Hs & _ & Hcall)].
  split; [exact Hs | exact Hcall].
Defined.

(** X14. Nothing but the firing of a timer removes a timer: a call into
    the library, and the body of a task, leave the waiting timers in place
    and in order, adding new ones behind them; a tick removes the first
    timer only. *)
Theorem timers_are_never_cancelled (user : nat -> UserFn) (s : State) :
  (forall c, exists new, timers (exec_cmd user c s).1 = timers s ++ new) ∧
  (forall t, exists new, timers (run_task user t s) = timers s ++ new) ∧
  (forall t rest, timers s = t :: rest ->
     exists new, timers (tick user s) = rest ++ new).
Proof.
  split; [|split].
  - intros c. apply (reach_timers Library); [done | apply exec_cmd_reach].
  - intros t. apply (reach_timers TaskBody); [done | apply run_task_reach].
  - intros t rest Ht. unfold tick. rewrite Ht.
    apply (reach_timers TaskBody _ _ ltac:(done) (run_task_reach user t (with_timers rest s))).
Qed.

Lemma timers_are_never_cancelled_witness :
  timers two_promises = [{| task_callbacks := []; task_value := VNum 1 |}] ∧
  exists new, timers (tick identity_user two_promises) = [] ++ new.
Proof.
  split; [reflexivity|].
  destruct (timers_are_never_cancelled identity_user two_promises) as (_ & _ & H).
  exact (H _ [] eq_refl).
Defined.

(** ** The [result] array of [Promise.all] *)

Lemma length_array_set l i v : length (array_set l i v) = length l `max` S i.
Proof.
  unfold array_set. case_decide.
  - rewrite length_insert. lia.
  - rewrite !length_app, length_replicate. cbn. lia.
Qed.

Lemma lookup_array_set_eq l i v : array_set l i v !! i = Some v.
Proof.
  unfold array_set. case_decide.
  - by apply list_lookup_insert_eq.
  - rewrite lookup_app_r; [|lia]. rewrite lookup_app_r; rewrite length_replicate; [|lia].
    by replace (i - length l - (i - length l)) with 0 by lia.
Qed.

Lemma lookup_array_set_ne l i j v :
  j ≠ i -> j < length l -> array_set l i v !! j = l !! j.
Proof.
  intros Hne Hlt. unfold array_set. case_decide.
  - by apply list_lookup_insert_ne.
  - by apply lookup_app_l.
Qed.

Lemma array_sets_lookup_other acc calls j :
  j ∉ calls.*1 -> j < length acc -> array_sets acc calls !! j = acc !! j.
Proof.
  revert acc. induction calls as [|[i v] calls IH]; intros acc Hnot Hlt; [done|].
  cbn in Hnot. apply not_elem_of_cons in Hnot as [Hne Hnot].
  unfold array_sets in *. cbn [foldl fst snd]. rewrite IH; [|done|].
  - by apply lookup_array_set_ne.
  - rewrite length_array_set. lia.
Qed.

Lemma array_sets_lookup acc calls j v :
  NoDup calls.*1 -> (j, v) ∈ calls -> array_sets acc calls !! j = Some v.
Proof.
  revert acc. induction calls as [|[i w] calls IH]; intros acc Hnd Hin.
  - by apply elem_of_nil in Hin.
  - cbn in Hnd. apply NoDup_cons in Hnd as [Hnot Hnd].
    unfold array_sets in *. cbn [foldl fst snd].
    apply elem_of_cons in Hin as [Heq|Hin].
    + simplify_eq. fold (array_sets (array_set acc i w) calls).
      rewrite array_sets_lookup_other; [apply lookup_array_set_eq|done|].
      rewrite length_array_set. lia.
    + by apply IH.
Qed.

Lemma array_sets_length acc calls n :
  (forall c, c ∈ calls -> c.1 < n) -> length acc ≤ n -> length (array_sets acc calls) ≤ n.
Proof.
  revert acc. induction calls as [|[i w] calls IH]; intros acc Hall Hlen; [done|].
  unfold array_sets in *. cbn [foldl fst snd]. apply IH.
  - intros c Hc. apply Hall. by right.
  - rewrite length_array_set. specialize (Hall (i, w) ltac:(by left)). cbn in Hall. lia.
Qed.

Lemma elem_of_indexed xs j v : (j, v) ∈ indexed xs ↔ xs !! j = Some v.
Proof.
  unfold indexed. split.
  - intros Hin. apply list_elem_of_lookup in Hin as [k Hk].
    apply lookup_zip_with_Some in Hk as (j' & v' & Heq & Hseq & Hx). simplify_eq.
    apply lookup_seq in Hseq as [-> _]. done.
  - intros Hx. apply list_elem_of_lookup. exists j.
    apply lookup_zip_with_Some. exists j, v. split; [done|]. split; [|done].
    rewrite lookup_seq_lt; [done|]. by eapply lookup_lt_Some.
Qed.

(** Writes at the indices of a list, in any order, build the list. *)
Lemma array_sets_indexed xs calls : calls ≡ₚ indexed xs -> array_sets [] calls = xs.
Proof.
  intros Hperm.
  assert (NoDup calls.*1) as Hnd.
  { rewrite Hperm. unfold indexed. rewrite fst_zip; [apply NoDup_seq|].
    by rewrite length_seq. }
  apply list_eq. intros j. destruct (xs !! j) as [v|] eqn:Hx.
  - apply array_sets_lookup; [done|]. rewrite Hperm. by apply elem_of_indexed.
  - apply lookup_ge_None. apply lookup_ge_None in Hx.
    etrans; [|exact Hx]. apply array_sets_length; [|cbn; lia].
    intros [i w] Hc. rewrite Hperm in Hc. apply elem_of_indexed in Hc.
    by eapply lookup_lt_Some.
Qed.

Lemma all_callbacks_run sc calls s a oP :
  alls s !! sc = Some a -> count a + length calls = all_length a -> calls ≠ [] ->
  heap s !! all_promise a = Some oP -> _status oP = PENDING ->
  status_of (all_promise a) (all_callbacks sc calls s) = Some FULLFILLED ∧
  value_of (all_promise a) (all_callbacks sc calls s)
    = Some (VArray (array_sets (result a) calls)).
Proof.
  revert s a. induction calls as [|[i v] rest IH]; intros s a Ha Hcount Hne Hp Hst; [done|].
  unfold all_callbacks, array_sets in *. cbn [foldl fst snd call_closure]. rewrite Ha.
  assert (heap (all_record sc i v s) = heap s) as Hheap
    by (unfold all_record; by rewrite Ha).
  case_decide as Hlast; cbn [fst].
  - destruct rest as [|c rest]; [|cbn in Hcount; lia]. cbn [foldl].
    eapply resolve_status; [by rewrite Hheap | done].
  - destruct rest as [|c rest]; [cbn in Hcount; lia|].
    eapply (IH (all_record sc i v s)
              {| all_promise := all_promise a; all_length := all_length a;
                 result := array_set (result a) i v; count := S (count a) |});
      try done.
    + unfold all_record. rewrite Ha. cbn.
      apply list_lookup_insert_eq. by eapply lookup_lt_Some.
    + cbn in *. lia.
    + by rewrite Hheap.
Qed.

(** X15. The callbacks [Promise.all] registers write each value at the
    index fixed when the callback was made: when the callbacks for all the
    indices of [xs] have been called, in whatever order, each with the
    element of [xs] at its index, the pending result promise is fulfilled
    with the array [xs], and stays so. *)
Theorem all_collects_by_index_in_any_order
    (user : nat -> UserFn) (sc : nat) (xs : list Value) (calls : list (nat * Value))
    (s : State) (a : AllScope) (oP : PromiseObj) (es : list Event) :
  alls s !! sc = Some a ->
  result a = [] -> count a = 0 -> all_length a = length xs -> xs ≠ [] ->
  heap s !! all_promise a = Some oP -> _status oP = PENDING ->
  calls ≡ₚ indexed xs ->
  status_of (all_promise a) (steps user es (all_callbacks sc calls s)) = Some FULLFILLED ∧
  value_of (all_promise a) (steps user es (all_callbacks sc calls s)) = Some (VArray xs).
Proof.
  intros Ha Hres Hcount Hlen Hne Hp Hst Hperm.
  assert (length calls = length xs) as Hlc.
  { rewrite Hperm. unfold indexed. rewrite length_zip, length_seq. lia. }
  destruct (all_callbacks_run sc calls s a oP Ha) as [Hs Hv]; try done.
  - rewrite Hcount, Hlen. lia.
  - intros ->. destruct xs; [done|]. cbn in Hlc. lia.
  - rewrite Hres, (array_sets_indexed _ _ Hperm) in Hv. by apply status_forever.
Qed.

Lemma all_collects_by_index_in_any_order_witness :
  let s := new_all 1 3 two_promises in
  let calls := [(2, VStr "c"); (0, VStr "a"); (1, VStr "b")] in
  alls s !! 0 = Some {| all_promise := 1; all_length := 3; result := []; count := 0 |} ∧
  calls ≡ₚ indexed [VStr "a"; VStr "b"; VStr "c"] ∧
  value_of 1 (all_callbacks 0 calls s) = Some (VArray [VStr "a"; VStr "b"; VStr "c"]).
Proof.
  intros s calls.
  assert (calls ≡ₚ indexed [VStr "a"; VStr "b"; VStr "c"]) as Hperm.
  { subst calls. unfold indexed. cbn.
    etrans; [apply Permutation_cons_append|]. done. }
  split; [reflexivity|]. split; [exact Hperm|].
  exact (proj2 (all_collects_by_index_in_any_order identity_user 0
                  [VStr "a"; VStr "b"; VStr "c"] calls s
                  {| all_promise := 1; all_length := 3; result := []; count := 0 |}
                  fresh_promise [] eq_refl eq_refl eq_refl eq_refl ltac:(discriminate)
                  eq_refl eq_refl Hperm)).
Defined.

(** X16. A ['reject'] callback of [Promise.all] rejects the pending result
    promise with its argument at once and leaves [result] and [count] as
    they are; whatever is called afterwards, the remaining callbacks
    included, the promise stays rejected with that reason. *)
Theorem all_rejects_on_first_failure_for_good
    (user : nat -> UserFn) (sc i : nat) (reason : Value) (s : State) (a : AllScope)
    (oP : PromiseObj) (es : list Event) :
  alls s !! sc = Some a ->
  heap s !! all_promise a = Some oP -> _status oP = PENDING ->
  let s1 := (call_closure (FAll sc i ActReject) reason s).1 in
  alls s1 = alls s ∧
  status_of (all_promise a) (steps user es s1) = Some REJECTED ∧
  value_of (all_promise a) (steps user es s1) = Some reason.
Proof.
  intros Ha Hp Hst s1. subst s1. cbn [call_closure]. rewrite Ha. cbn [fst]. split.
  - rewrite (reject_pending _ _ _ _ Hp Hst). done.
  - destruct (reject_status _ _ reason _ Hp Hst) as [Hs Hv]. by apply status_forever.
Qed.

Lemma all_rejects_on_first_failure_for_good_witness :
  let s := new_all 1 2 two_promises in
  let later := [ECmd (CCall (FAll 0 0 ActResolve) (VNum 1));
                ECmd (CCall (FAll 0 1 ActResolve) (VNum 2)); ETick] in
  let s1 := (call_closure (FAll 0 1 ActReject) (VStr "x") s).1 in
  heap s !! 1 = Some fresh_promise ∧
  status_of 1 (steps identity_user later s1) = Some REJECTED ∧
  value_of 1 (steps identity_user later s1) = Some (VStr "x").
Proof.
  intros s later s1. split; [reflexivity|].
  exact (proj2 (all_rejects_on_first_failure_for_good identity_user 0 1 (VStr "x") s
                  {| all_promise := 1; all_length := 2; result := []; count := 0 |}
                  fresh_promise later eq_refl eq_refl eq_refl)).
Defined.

(** ** What the operations leave alone *)

Lemma modify_status q f p s :
  (forall o, _status (f o) = _status o) ->
  status_of p (modify q f s) = status_of p s.
Proof.
  intros Hf. unfold status_of, modify. cbn. destruct (decide (q = p)) as [->|Hne].
  - rewrite list_lookup_alter_eq. destruct (heap s !! p); [|done]. cbn. by rewrite Hf.
  - by rewrite list_lookup_alter_ne.
Qed.

Lemma run_status p q s : status_of p (run q s) = status_of p s.
Proof.
  unfold run. destruct (heap s !! q) as [o|]; [|done].
  destruct (_status o); [done| |]; unfold clear_callbacks; by rewrite modify_status.
Qed.

(** [then] changes the status of no promise. *)
Lemma then_status p o this a b s :
  heap s !! p = Some o -> status_of p (then_ this a b s).1 = Some (_status o).
Proof.
  intros Hp. unfold then_, new_Promise_empty. cbn [fst]. rewrite run_status.
  unfold push_fail, push_done. rewrite !modify_status; [|done..].
  unfold status_of. cbn. by rewrite (lookup_app_l_Some _ _ _ _ Hp).
Qed.

Lemma resolve_cases p v s :
  resolve p v s = s ∨
  exists o, heap s !! p = Some o ∧ _status o = PENDING ∧
    resolve p v s =
      with_heap (<[p := {| _status := FULLFILLED; _value := v;
                           _doneCallbacks := []; _failCallbacks := [] |}]> (heap s))
        (with_timers (timers s ++
           [{| task_callbacks := _doneCallbacks o; task_value := v |}]) s).
Proof.
  destruct (heap s !! p) as [o|] eqn:Hp.
  - destruct (decide (_status o = PENDING)) as [Hst|Hst].
    + right. exists o. split; [done|]. split; [done|]. by apply resolve_pending.
    + left. by eapply resolve_settled.
  - left. unfold resolve, status_of. by rewrite Hp.
Qed.

(** [resolve] writes one promise object and leaves the scopes of [race]
    and [all] alone. *)
Lemma resolve_frame p v s :
  races (resolve p v s) = races s ∧ alls (resolve p v s) = alls s ∧
  (forall q, q ≠ p -> heap (resolve p v s) !! q = heap s !! q) ∧
  length (heap (resolve p v s)) = length (heap s).
Proof.
  destruct (resolve_cases p v s) as [->|(o & Hp & Hst & ->)]; [done|]. cbn.
  split; [done|]. split; [done|]. split; [|by rewrite length_insert].
  intros q Hne. by rewrite list_lookup_insert_ne.
Qed.

Lemma then_frame this a b s :
  races (then_ this a b s).1 = races s ∧ alls (then_ this a b s).1 = alls s.
Proof.
  unfold then_, new_Promise_empty. cbn [fst]. unfold run.
  destruct (heap _ !! this) as [o|]; [|done]. by destruct (_status o).
Qed.

Lemma Promise_resolve_frame v s :
  races (Promise_resolve v s).1 = races s ∧ alls (Promise_resolve v s).1 = alls s ∧
  (forall q o, heap s !! q = Some o -> heap (Promise_resolve v s).1 !! q = Some o).
Proof.
  unfold Promise_resolve, new_Promise_empty. cbn [fst].
  destruct (resolve_frame (length (heap s)) v (alloc_promise s)) as (-> & -> & Hother & _).
  split; [done|]. split; [done|]. intros q o Hq.
  rewrite Hother; [|apply lookup_lt_Some in Hq; lia]. cbn. by apply lookup_app_l_Some.
Qed.

(** One turn of the loops of [race] and [all] keeps the status of every
    promise there was. *)
Lemma coerce_then_status iterate a b p o s :
  heap s !! p = Some o ->
  status_of p (then_ (coerce iterate s).2 a b (coerce iterate s).1).1 = Some (_status o).
Proof.
  intros Hp. destruct (decide (not_promise iterate = true)) as [Hn|Hn].
  - assert (coerce iterate s = Promise_resolve iterate s) as -> by by destruct iterate.
    destruct (Promise_resolve_frame iterate s) as (_ & _ & Hkeep).
    by apply then_status, Hkeep.
  - destruct iterate; try done. cbn [coerce fst snd]. by apply then_status.
Qed.

Lemma coerce_then_frame iterate a b s :
  races (then_ (coerce iterate s).2 a b (coerce iterate s).1).1 = races s ∧
  alls (then_ (coerce iterate s).2 a b (coerce iterate s).1).1 = alls s.
Proof.
  destruct (then_frame (coerce iterate s).2 a b (coerce iterate s).1) as [-> ->].
  assert (forall v, races (Promise_resolve v s).1 = races s ∧
                    alls (Promise_resolve v s).1 = alls s) as H
    by (intros v; by destruct (Promise_resolve_frame v s) as (-> & -> & _)).
  destruct iterate; try apply H. done.
Qed.

Lemma race_loop_frame sc xs p o s :
  heap s !! p = Some o ->
  status_of p (race_loop sc xs s) = Some (_status o) ∧
  races (race_loop sc xs s) = races s.
Proof.
  revert o s. induction xs as [|x xs IH]; intros o s Hp.
  - cbn [race_loop]. split; [|done]. unfold status_of. by rewrite Hp.
  - cbn [race_loop].
    pose proof (coerce_then_status x (VClosure (FRaceResolve sc))
                  (VClosure (FRaceReject sc)) p o s Hp) as Hs.
    pose proof (coerce_then_frame x (VClosure (FRaceResolve sc))
                  (VClosure (FRaceReject sc)) s) as [Hr _].
    destruct (coerce x s) as [s1 it]. cbn [fst snd] in *.
    unfold status_of in Hs.
    destruct (heap (then_ it _ _ s1).1 !! p) as [o'|] eqn:Hp'; [|done].
    cbn in Hs. destruct (IH o' _ Hp') as [-> ->]. split; [congruence | done].
Qed.

(** One turn of the loop on an input that is not a promise: two timers. *)
Lemma coerce_then_timers x a b s :
  not_promise x = true ->
  timers (then_ (coerce x s).2 a b (coerce x s).1).1 =
  timers s ++
    [{| task_callbacks := []; task_value := x |};
     {| task_callbacks := [makeCallback (S (length (heap s))) a ActResolve];
        task_value := x |}] ∧
  length (heap (then_ (coerce x s).2 a b (coerce x s).1).1) = S (S (length (heap s))).
Proof.
  intros Hn. assert (coerce x s = Promise_resolve x s) as -> by by destruct x.
  split; [apply then_on_resolved|].
  unfold Promise_resolve, new_Promise_empty. cbn [fst snd].
  rewrite (resolve_pending _ _ _ _ (alloc_promise_lookup s) eq_refl).
  erewrite then_settled; [| cbn; apply list_lookup_insert_eq; cbn;
                            rewrite length_app; cbn; lia | done].
  cbn. rewrite length_insert, length_app, length_insert, length_app. cbn. lia.
Qed.

(** ** [race] and [all] on inputs that are not promises *)

Lemma tick_cons user t rest s :
  timers s = t :: rest -> tick user s = run_task user t (with_timers rest s).
Proof. intros Ht. unfold tick. by rewrite Ht. Qed.

Lemma status_of_pending p s :
  status_of p s = Some PENDING -> exists o, heap s !! p = Some o ∧ _status o = PENDING.
Proof.
  unfold status_of. destruct (heap s !! p) as [o|]; [|done]. cbn. intros ?.
  exists o. split; [done | congruence].
Qed.

(** X17. [Promise.race] on an array whose first element [x] is not a
    promise, called when no timer is waiting: two ticks later the promise
    it built is fulfilled with [x] itself, whatever the other elements are,
    and it stays so. *)
Theorem race_takes_a_first_element_that_is_a_value
    (user : nat -> UserFn) (x : Value) (rest : list Value) (s : State) (es : list Event) :
  timers s = [] -> not_promise x = true ->
  let r := Promise_race user (VArray (x :: rest)) s in
  let promise := length (heap s) in
  status_of promise (steps user (ETick :: ETick :: es) r.1) = Some FULLFILLED ∧
  value_of promise (steps user (ETick :: ETick :: es) r.1) = Some x.
Proof.
  intros Ht Hx r promise. subst r. unfold Promise_race.
  cbn [array_like new_Promise_empty fst snd race_loop].
  set (sc := length (races (alloc_promise s))).
  set (s2 := new_race (length (heap s)) (alloc_promise s)).
  assert (heap s2 !! promise = Some fresh_promise) as Hp2 by apply alloc_promise_lookup.
  assert (races s2 !! sc = Some {| race_promise := promise; settled := false |}) as Hr2.
  { subst s2 sc. cbn. rewrite lookup_app_r; [|done]. by rewrite Nat.sub_diag. }
  assert (timers s2 = []) as Ht2 by done.
  clearbody s2 sc.
  pose proof (coerce_then_timers x (VClosure (FRaceResolve sc)) (VClosure (FRaceReject sc))
                s2 Hx) as [Ht3 _].
  pose proof (coerce_then_status x (VClosure (FRaceResolve sc)) (VClosure (FRaceReject sc))
                _ _ s2 Hp2) as Hs3.
  pose proof (coerce_then_frame x (VClosure (FRaceResolve sc)) (VClosure (FRaceReject sc))
                s2) as [Hr3 _].
  destruct (coerce x s2) as [s2' it]. cbn [fst snd] in *.
  set (s3 := (then_ it _ _ s2').1) in *. clearbody s3. rewrite Ht2 in Ht3. cbn [app] in Ht3.
  destruct (status_of_pending _ _ Hs3) as (o3 & Hp3 & Hst3).
  destruct (race_loop_frame sc rest _ _ s3 Hp3) as [Hs4 Hr4].
  destruct (reach_timers Library _ _ ltac:(done) (race_loop_reach Library sc rest s3))
    as [new Ht4].
  set (s4 := race_loop sc rest s3) in *. clearbody s4.
  rewrite Ht3 in Ht4. cbn [app] in Ht4. rewrite Hst3 in Hs4. rewrite Hr3 in Hr4.
  rewrite !steps_cons. cbn [step].
  assert (exists S2, heap S2 = heap s4 ∧ races S2 = races s4 ∧
            tick user (tick user s4) =
            promiseCallback user
              (makeCallback (S (length (heap s2))) (VClosure (FRaceResolve sc)) ActResolve)
              x S2) as (S2 & Hh2 & Hrs2 & ->).
  { eexists. split; [|split]; [| |rewrite (tick_cons _ _ _ _ Ht4); unfold run_task at 1;
      cbn [task_callbacks foldl]; erewrite tick_cons; [|reflexivity]; reflexivity]; done. }
  unfold promiseCallback.
  cbn [cb_callback is_function call_function call_closure cb_promise].
  rewrite Hrs2, Hr4, Hr2. cbn [settled race_promise resolveThenable].
  assert (status_of promise (set_settled sc S2) = Some PENDING) as Hs5.
  { unfold set_settled. rewrite Hrs2, Hr4, Hr2. unfold status_of. cbn. rewrite Hh2.
    exact Hs4. }
  destruct (status_of_pending _ _ Hs5) as (o5 & Hp5 & Hst5).
  destruct (resolve_status _ _ x _ Hp5 Hst5) as [Hs Hv].
  eapply frozen_settled; [|exact Hs|done|exact Hv].
  eapply frozen_trans; [eapply reach_frozen, (resolve_reach Library)|].
  eapply reach_frozen, steps_reach.
Qed.

Lemma race_takes_a_first_element_that_is_a_value_witness :
  timers quiet_promises = [] ∧
  let s := (Promise_race identity_user (VArray [VStr "first"; VPromise 1]) quiet_promises).1 in
  status_of 2 (steps identity_user [ETick; ETick] s) = Some FULLFILLED ∧
  value_of 2 (steps identity_user [ETick; ETick] s) = Some (VStr "first").
Proof.
  split; [reflexivity|].
  exact (race_takes_a_first_element_that_is_a_value identity_user (VStr "first")
           [VPromise 1] quiet_promises [] eq_refl eq_refl).
Defined.

Lemma array_set_end l v : array_set l (length l) v = l ++ [v].
Proof.
  unfold array_set. case_decide; [lia|]. by rewrite Nat.sub_diag.
Qed.

Lemma resolve_timers p v s : exists new, timers (resolve p v s) = timers s ++ new.
Proof. apply (reach_timers Library); [done | apply resolve_reach]. Qed.

(** The loop of [Promise.all] over inputs that are not promises. *)
Lemma all_loop_values sc i xs s :
  Forall (fun x => not_promise x = true) xs ->
  timers (all_loop sc i xs s) = timers s ++ all_tasks (length (heap s)) sc i xs ∧
  alls (all_loop sc i xs s) = alls s ∧
  (forall p o, heap s !! p = Some o ->
     status_of p (all_loop sc i xs s) = Some (_status o)).
Proof.
  revert i s. induction xs as [|x xs IH]; intros i s Hxs; cbn [all_loop all_tasks].
  - rewrite app_nil_r. split; [done|]. split; [done|].
    intros p o Hp. unfold status_of. by rewrite Hp.
  - apply Forall_cons in Hxs as [Hx Hxs].
    pose proof (coerce_then_timers x (VClosure (FAll sc i ActResolve))
                  (VClosure (FAll sc i ActReject)) s Hx) as [Ht Hlen].
    pose proof (coerce_then_frame x (VClosure (FAll sc i ActResolve))
                  (VClosure (FAll sc i ActReject)) s) as [_ Ha].
    pose proof (fun p o => coerce_then_status x (VClosure (FAll sc i ActResolve))
                  (VClosure (FAll sc i ActReject)) p o s) as Hs.
    destruct (coerce x s) as [s1 it]. cbn [fst snd] in *.
    destruct (IH (S i) (then_ it (VClosure (FAll sc i ActResolve))
                          (VClosure (FAll sc i ActReject)) s1).1 Hxs) as (Ht' & Ha' & Hs').
    rewrite Ht', Ht, Hlen, Ha', Ha, <- app_assoc. split; [done|]. split; [done|].
    intros p o Hp. specialize (Hs p o Hp). unfold status_of in Hs.
    destruct (heap (then_ it _ _ s1).1 !! p) as [o'|] eqn:Hp'; [|done].
    cbn in Hs. rewrite (Hs' p o' Hp'). congruence.
Qed.

(** The timers of [Promise.all] fire, two for each input. *)
Lemma all_tasks_run user sc xs :
  forall s0 i a extra b,
    timers s0 = all_tasks b sc i xs ++ extra ->
    alls s0 !! sc = Some a -> count a = i -> length (result a) = i ->
    i + length xs = all_length a ->
    status_of (all_promise a) s0 = Some PENDING -> all_promise a < b -> xs ≠ [] ->
    status_of (all_promise a) (steps user (replicate (2 * length xs) ETick) s0)
      = Some FULLFILLED ∧
    value_of (all_promise a) (steps user (replicate (2 * length xs) ETick) s0)
      = Some (VArray (result a ++ xs)).
Proof.
  induction xs as [|x rest IH]; intros s0 i a extra b Ht Ha Hcount Hlen Hn Hs Hb Hne; [done|].
  cbn [all_tasks app] in Ht.
  replace (2 * length (x :: rest)) with (S (S (2 * length rest))) by (cbn; lia).
  cbn [replicate]. rewrite !steps_cons. cbn [step].
  assert (exists S2, heap S2 = heap s0 ∧ alls S2 = alls s0 ∧
            timers S2 = all_tasks (S (S b)) sc (S i) rest ++ extra ∧
            tick user (tick user s0) =
            promiseCallback user
              (makeCallback (S b) (VClosure (FAll sc i ActResolve)) ActResolve) x S2)
    as (S2 & Hh2 & Ha2 & Ht2 & ->).
  { eexists. split; [|split; [|split]];
      [| | |rewrite (tick_cons _ _ _ _ Ht); unfold run_task at 1;
            cbn [task_callbacks foldl]; erewrite tick_cons; [|reflexivity]; reflexivity];
      done. }
  unfold promiseCallback.
  cbn [cb_callback is_function call_function call_closure cb_promise].
  rewrite Ha2, Ha.
  assert (heap (all_record sc i x S2) = heap s0) as Hh3
    by (unfold all_record; by rewrite Ha2, Ha).
  assert (status_of (all_promise a) (all_record sc i x S2) = Some PENDING) as Hs3
    by (unfold status_of; by rewrite Hh3).
  destruct (status_of_pending _ _ Hs3) as (o3 & Hp3 & Hst3).
  replace (array_set (result a) i x) with (result a ++ [x])
    by (by rewrite <- Hlen, array_set_end).
  case_decide as Hlast; cbn [resolveThenable].
  - destruct rest as [|y rest]; [|cbn in Hn; lia]. cbn [length replicate steps foldl].
    replace (2 * 0) with 0 by done. cbn [replicate foldl].
    destruct (resolve_status _ _ (VArray (result a ++ [x])) _ Hp3 Hst3) as [Hst Hv].
    eapply frozen_settled; [|exact Hst|done|exact Hv].
    eapply reach_frozen, (resolve_reach Library).
  - destruct rest as [|y rest]; [cbn in Hn; lia|].
    set (a' := {| all_promise := all_promise a; all_length := all_length a;
                  result := result a ++ [x]; count := S (count a) |}).
    set (S3 := resolve (S b) VUndefined (all_record sc i x S2)).
    destruct (resolve_frame (S b) VUndefined (all_record sc i x S2))
      as (_ & Ha3 & Hother & _).
    destruct (resolve_timers (S b) VUndefined (all_record sc i x S2)) as [new Hnew].
    fold S3 in Ha3, Hother, Hnew.
    assert (alls S3 !! sc = Some a') as Ha3'.
    { rewrite Ha3. unfold all_record. rewrite Ha2, Ha. cbn.
      rewrite <- Hlen, array_set_end.
      apply list_lookup_insert_eq. by eapply lookup_lt_Some. }
    assert (timers S3 = all_tasks (S (S b)) sc (S i) (y :: rest) ++ (extra ++ new)) as Ht3.
    { rewrite Hnew. unfold all_record. rewrite Ha2, Ha. cbn [timers with_alls].
      by rewrite Ht2, <- app_assoc. }
    assert (status_of (all_promise a') S3 = Some PENDING) as Hs3'.
    { unfold status_of. rewrite Hother; [|cbn; lia]. exact Hs3. }
    destruct (IH S3 (S i) a' (extra ++ new) (S (S b)) Ht3 Ha3') as [Hst Hv]; try done.
    + cbn. lia.
    + cbn. rewrite length_app. cbn. lia.
    + cbn in *. lia.
    + cbn. lia.
    + split; [exact Hst|]. etrans; [exact Hv|]. subst a'. cbn [result].
      by rewrite <- app_assoc.
Qed.

Lemma steps_app user es1 es2 s :
  steps user (es1 ++ es2) s = steps user es2 (steps user es1 s).
Proof. apply foldl_app. Qed.

(** X18. [Promise.all] on a non-empty array none of whose elements is a
    promise, called when no timer is waiting: after two ticks for each
    element, the promise it built is fulfilled with an array of the same
    elements in the same order, and it stays so. *)
Theorem all_of_values_fulfils_with_the_values
    (user : nat -> UserFn) (xs : list Value) (s : State) (es : list Event) :
  timers s = [] -> Forall (fun x => not_promise x = true) xs -> xs ≠ [] ->
  let r := Promise_all user (VArray xs) s in
  let promise := length (heap s) in
  let due := replicate (2 * length xs) ETick in
  status_of promise (steps user (due ++ es) r.1) = Some FULLFILLED ∧
  value_of promise (steps user (due ++ es) r.1) = Some (VArray xs).
Proof.
  intros Ht Hxs Hne r promise due. subst r due. unfold Promise_all.
  cbn [array_like new_Promise_empty fst snd].
  set (sc := length (alls (alloc_promise s))).
  set (s2 := new_all (length (heap s)) (length xs) (alloc_promise s)).
  set (a := {| all_promise := promise; all_length := length xs; result := []; count := 0 |}).
  assert (heap s2 !! promise = Some fresh_promise) as Hp2 by apply alloc_promise_lookup.
  assert (alls s2 !! sc = Some a) as Ha2.
  { subst s2 sc. cbn. rewrite lookup_app_r; [|done]. by rewrite Nat.sub_diag. }
  assert (timers s2 = []) as Ht2 by done.
  assert (length (heap s2) = S promise) as Hlen2.
  { subst s2. cbn. rewrite length_app. cbn. subst promise. lia. }
  clearbody s2 sc.
  destruct (all_loop_values sc 0 xs s2 Hxs) as (Ht3 & Ha3 & Hs3).
  rewrite Ht2, Hlen2 in Ht3. cbn [app] in Ht3.
  rewrite steps_app.
  destruct (all_tasks_run user sc xs (all_loop sc 0 xs s2) 0 a [] (S promise))
    as [Hst Hv]; try done.
  - by rewrite app_nil_r.
  - by rewrite Ha3.
  - apply (Hs3 _ _ Hp2).
  - cbn. lia.
  - cbn [all_promise a] in Hst, Hv. cbn [result a app] in Hv. by apply status_forever.
Qed.

Lemma all_of_values_fulfils_with_the_values_witness :
  timers quiet_promises = [] ∧
  let s := (Promise_all identity_user (VArray [VNum 7; VStr "b"]) quiet_promises).1 in
  status_of 2 (steps identity_user (replicate 4 ETick) s) = Some FULLFILLED ∧
  value_of 2 (steps identity_user (replicate 4 ETick) s) = Some (VArray [VNum 7; VStr "b"]).
Proof.
  split; [reflexivity|].
  assert (Forall (fun x => not_promise x = true) [VNum 7; VStr "b"]) as Hxs
    by (repeat constructor).
  exact (all_of_values_fulfils_with_the_values identity_user [VNum 7; VStr "b"]
           quiet_promises [] eq_refl Hxs ltac:(discriminate)).
Defined.

(** ** A thenable that hands over a promise of the library *)

Lemma same_object_plain v q : plain v = true -> same_object v (VPromise q) = false.
Proof. by destruct v. Qed.

(** X19. When [resolveThenable] meets a promise of the library (handed
    over by a thenable), it calls the promise's own [then] with its two
    functions.  For a settled promise with empty queues, when no timer is
    waiting: the target promise is pending when [resolveThenable] returns;
    on the next tick it is rejected with the reason of a rejected promise,
    and fulfilled with the value of a fulfilled one when that value is
    neither a promise nor a thenable; and it stays so. *)
Theorem promise_inside_a_thenable_is_followed
    (user : nat -> UserFn) (q p : nat) (s : State) (oq oP : PromiseObj) :
  heap s !! q = Some oq ->
  _doneCallbacks oq = [] -> _failCallbacks oq = [] -> timers s = [] ->
  heap s !! p = Some oP -> _status oP = PENDING ->
  let s' := resolveThenable (VPromise q) p s in
  (_status oq ≠ PENDING -> status_of p s' = Some PENDING) ∧
  (_status oq = FULLFILLED -> plain (_value oq) = true ->
   forall es, status_of p (steps user es (tick user s')) = Some FULLFILLED ∧
              value_of p (steps user es (tick user s')) = Some (_value oq)) ∧
  (_status oq = REJECTED ->
   forall es, status_of p (steps user es (tick user s')) = Some REJECTED ∧
              value_of p (steps user es (tick user s')) = Some (_value oq)).
Proof.
  intros Hq Hdone Hfail Ht Hp Hst s'. subst s'. cbn [resolveThenable].
  set (l := length (latches s)).
  assert (heap (new_latch s) !! q = Some oq) as Hq' by done.
  assert (heap (alloc_promise (new_latch s)) !! p = Some oP) as HpA
    by (cbn; by apply lookup_app_l_Some).
  assert (is_invoked l (alloc_promise (new_latch s)) = false) as Hl
    by apply is_invoked_new.
  assert (forall S0, heap S0 = heap (alloc_promise (new_latch s)) ->
            heap S0 !! p = Some oP) as HpS by (by intros S0 ->).
  split; [|split].
  - intros Hne. rewrite (then_status p oP); [by rewrite Hst | done].
  - intros Hsq Hplain es.
    rewrite (then_settled_tick user q oq); try done; [|by rewrite Hsq].
    rewrite Hsq. unfold promiseCallback.
    cbn [cb_callback is_function call_function call_closure cb_promise].
    rewrite Hl, (same_object_plain _ _ Hplain), (resolveThenable_plain _ _ _ Hplain).
    cbn [resolveThenable].
    destruct (resolve_status p oP (_value oq)
                (fire_latch l (alloc_promise (new_latch s))) (HpS _ eq_refl) Hst)
      as [Hs Hv].
    eapply frozen_settled; [|exact Hs|done|exact Hv].
    eapply frozen_trans; [eapply reach_frozen, (resolve_reach Library)|].
    eapply reach_frozen, steps_reach.
  - intros Hsq es.
    rewrite (then_settled_tick user q oq); try done; [|by rewrite Hsq].
    rewrite Hsq. unfold promiseCallback.
    cbn [cb_callback is_function call_function call_closure cb_promise].
    rewrite Hl. cbn [resolveThenable].
    destruct (reject_status p oP (_value oq)
                (fire_latch l (alloc_promise (new_latch s))) (HpS _ eq_refl) Hst)
      as [Hs Hv].
    eapply frozen_settled; [|exact Hs|done|exact Hv].
    eapply frozen_trans; [eapply reach_frozen, (resolve_reach Library)|].
    eapply reach_frozen, steps_reach.
Qed.

Lemma promise_inside_a_thenable_is_followed_witness :
  timers quiet_promises = [] ∧ heap quiet_promises !! 1 = Some fresh_promise ∧
  let s' := resolveThenable (VPromise 0) 1 quiet_promises in
  status_of 1 s' = Some PENDING ∧
  forall es,
    status_of 1 (steps identity_user es (tick identity_user s')) = Some FULLFILLED ∧
    value_of 1 (steps identity_user es (tick identity_user s')) = Some (VNum 1).
Proof.
  split; [reflexivity|]. split; [reflexivity|].
  destruct (promise_inside_a_thenable_is_followed identity_user 0 1 quiet_promises
              {| _status := FULLFILLED; _value := VNum 1;
                 _doneCallbacks := []; _failCallbacks := [] |} fresh_promise
              eq_refl eq_refl eq_refl eq_refl eq_refl eq_refl) as (Hnow & Hful & _).
  split; [exact (Hnow ltac:(discriminate))|].
  exact (Hful eq_refl eq_refl).
Defined.
